(** * ethclient: resilient subscriptions and nonce management

    A shallow embedding of the Go package [ethclient]:

    - [ChainSubscrier.SubscribeFilterlogs] / [subscribeFilterlog] and
      [ChainSubscrier.SubscribeNewHead] / [subscribeNewHead]
      (the gap detector goroutine and the resubscription goroutine of each);
    - [NonceManager.PendingNonceAt].

    Every goroutine is modelled as a reactive state machine.  A state is a
    point where the goroutine is blocked (in a [select], or inside a remote
    call that takes the context); an event is what unblocks it (an item read
    from [checkChan], [ctx.Done()] being selected, the reply of the remote
    call); a step returns the next blocking point together with the actions
    performed on the way ([resultChan <- x], the next remote call,
    [time.Sleep]).  A step is [None] when the goroutine has no way to react
    to the event at that point.  [time.Sleep(reconnectInterval)] is a
    bounded delay and a send on [resultChan] completes once the consumer
    reads, so both are actions, not blocking points.  The remote node is not
    modelled: its replies are events, universally quantified in the
    theorems. *)

From Stdlib Require Import ZArith Bool Lia Sorted.
From stdpp Require Import base option list gmap.

Local Open Scope Z_scope.

(* ===================================================================== *)
(** * Part I: the model                                                   *)
(* ===================================================================== *)

(** ** Errors, machine integers, configuration *)

(** The error values the code compares against by identity
    ([context.Canceled], [context.DeadlineExceeded], [ethereum.NotFound]);
    every other error is [OtherErr]. *)
Inductive error : Type :=
| Canceled
| DeadlineExceeded
| NotFound
| OtherErr (code : nat).

(** [err == context.Canceled || err == context.DeadlineExceeded] *)
Definition is_cancel (err : error) : bool :=
  match err with
  | Canceled | DeadlineExceeded => true
  | _ => false
  end.

(** The outcome of a remote call: [(v, nil)] or [(_, err)]. *)
Inductive outcome (A : Type) : Type :=
| Ok (v : A)
| Err (err : error).
Arguments Ok {A} v.
Arguments Err {A} err.

Definition two64 : Z := 2 ^ 64.

(** uint64 arithmetic wraps. *)
Definition wrap64 (z : Z) : Z := z mod two64.

(** The conversion [int64(x)] of a uint64 [x]. *)
Definition to_int64 (z : Z) : Z :=
  if wrap64 z <? 2 ^ 63 then wrap64 z else wrap64 z - two64.

Definition uint64_max : Z := two64 - 1.

(** [time.Second], in nanoseconds, and [reconnectInterval = 2 * time.Second]. *)
Definition Second : Z := 1000000000.
Definition reconnectInterval : Z := 2 * Second.

(** ** Generic machinery for the goroutines *)

(** What unblocks a gap-detector goroutine.  [E] is the item type of
    [checkChan], [R] the value a successful remote call returns. *)
Inductive event (E R : Type) : Type :=
| Recv (e : E)               (* case x := <-checkChan *)
| CtxDone                    (* case <-ctx.Done() *)
| Reply (r : outcome R).      (* the pending remote call returns *)
Arguments Recv {E R} e.
Arguments CtxDone {E R}.
Arguments Reply {E R} r.

(** What a gap-detector goroutine does.  [Q] is the argument of the remote
    call. *)
Inductive action (E Q : Type) : Type :=
| Deliver (e : E)            (* resultChan <- e *)
| Call (q : Q)               (* cs.c.FilterLogs(ctx, q) / cs.c.HeaderByNumber(ctx, q) *)
| Sleep (d : Z).             (* time.Sleep(d) *)
Arguments Deliver {E Q} e.
Arguments Call {E Q} q.
Arguments Sleep {E Q} d.

(** The items sent on [resultChan], in order. *)
Fixpoint delivered {E Q : Type} (acts : list (action E Q)) : list E :=
  match acts with
  | [] => []
  | Deliver e :: acts' => e :: delivered acts'
  | _ :: acts' => delivered acts'
  end.

(** The remote calls issued, in order. *)
Fixpoint calls {E Q : Type} (acts : list (action E Q)) : list Q :=
  match acts with
  | [] => []
  | Call q :: acts' => q :: calls acts'
  | _ :: acts' => calls acts'
  end.

(** Running a machine over a sequence of events, collecting the actions. *)
Fixpoint run {St Ev A : Type} (step : St -> Ev -> option (St * list A))
    (st : St) (evs : list Ev) : option (St * list A) :=
  match evs with
  | [] => Some (st, [])
  | ev :: evs' =>
      match step st ev with
      | None => None
      | Some (st', acts) =>
          match run step st' evs' with
          | None => None
          | Some (st'', acts') => Some (st'', acts ++ acts')
          end
      end
  end.

(** [P] holds of every (state, event) pair met while running the machine. *)
Fixpoint along {St Ev A : Type} (step : St -> Ev -> option (St * list A))
    (P : St -> Ev -> Prop) (st : St) (evs : list Ev) : Prop :=
  match evs with
  | [] => True
  | ev :: evs' =>
      P st ev /\
      match step st ev with
      | Some (st', _) => along step P st' evs'
      | None => True
      end
  end.

(** ** Logs: [types.Log], [ethereum.FilterQuery], [hasSeen] *)

(** The fields of [types.Log] the subscriber reads; the rest of the log
    (address, topics, data, hashes) is [LogData]. *)
Record Log : Type := mkLog {
  BlockNumber : Z;   (* uint64 *)
  TxIndex : Z;       (* uint *)
  Index : Z;         (* uint *)
  LogData : nat
}.

(** [ethereum.FilterQuery]: the block range ([nil] is [None]) and the
    address/topic criterion. *)
Record FilterQuery : Type := mkQuery {
  FromBlock : option Z;
  ToBlock : option Z;
  Criterion : nat
}.

(** [query.FromBlock = big.NewInt(int64(start))] *)
Definition set_FromBlock (query : FilterQuery) (start : Z) : FilterQuery :=
  {| FromBlock := Some (to_int64 start);
     ToBlock := ToBlock query;
     Criterion := Criterion query |}.

(** Report whether the coming log has been seen. *)
Definition hasSeen (lastLog commingLog : Log) : bool :=
  if BlockNumber lastLog >? BlockNumber commingLog then true
  else if BlockNumber lastLog =? BlockNumber commingLog then
    if TxIndex lastLog >? TxIndex commingLog then true
    else if (TxIndex lastLog =? TxIndex commingLog)
            && (Index lastLog >=? Index commingLog) then true
    else false
  else false.

(** The sequence key of a log and its lexicographic order. *)
Definition log_key (l : Log) : Z * Z * Z := (BlockNumber l, TxIndex l, Index l).

Definition key_lt (a b : Z * Z * Z) : Prop :=
  let '(a1, a2, a3) := a in
  let '(b1, b2, b3) := b in
  a1 < b1 \/ (a1 = b1 /\ (a2 < b2 \/ (a2 = b2 /\ a3 < b3))).

Definition key_le (a b : Z * Z * Z) : Prop := key_lt a b \/ a = b.

Definition log_lt (a b : Log) : Prop := key_lt (log_key a) (log_key b).

(** ** The gap detector of [subscribeFilterlog] *)

Definition log_event : Type := event Log (list Log).
Definition log_action : Type := action Log FilterQuery.

(** Where the goroutine of lines 74-131 can be blocked.  [query] is the
    goroutine's own copy of the criterion, whose [FromBlock] it rewrites. *)
Inductive log_state : Type :=
| LSelect (lastLog : option Log) (query : FilterQuery)
    (* in the [select] on [checkChan] and [ctx.Done()] *)
| LQuery (lastLog : Log) (query : FilterQuery) (start end_ : Z)
    (* in [cs.c.FilterLogs(ctx, query)], inside [for start <= end] *)
| LExit.
    (* returned *)

(** The inner [for _, l := range vlog]: the new [lastLog] and the logs sent
    on [resultChan]. *)
Fixpoint deliver_missing (lastLog : Log) (vlog : list Log) : Log * list Log :=
  match vlog with
  | [] => (lastLog, [])
  | l :: vlog' =>
      if hasSeen lastLog l then deliver_missing lastLog vlog'
      else
        let '(last', out) := deliver_missing l vlog' in
        (last', l :: out)
  end.

(** The head of [for start <= end]: either the next [FilterLogs] call or
    back to the [select]. *)
Definition log_loop (lastLog : Log) (query : FilterQuery) (start end_ : Z)
  : log_state * list log_action :=
  if start <=? end_ then
    let query' := set_FromBlock query start in
    (LQuery lastLog query' start end_, [Call query'])
  else (LSelect (Some lastLog) query, []).

Definition log_step (st : log_state) (ev : log_event)
  : option (log_state * list log_action) :=
  match st, ev with
  | LSelect _ _, CtxDone => Some (LExit, [])
  | LSelect None query, Recv commingLog =>
      Some (LSelect (Some commingLog) query, [Deliver commingLog])
  | LSelect (Some lastLog) query, Recv commingLog =>
      if hasSeen lastLog commingLog then Some (LSelect (Some lastLog) query, [])
      else Some (log_loop lastLog query (BlockNumber lastLog) (BlockNumber commingLog))
  | LQuery lastLog query start end_, Reply (Err err) =>
      if is_cancel err then Some (LExit, [])
      else
        let '(st', acts) := log_loop lastLog query start end_ in
        Some (st', Sleep reconnectInterval :: acts)
  | LQuery lastLog query start end_, Reply (Ok vlog) =>
      let '(last', out) := deliver_missing lastLog vlog in
      let '(st', acts) := log_loop last' query (wrap64 (end_ + 1)) end_ in
      Some (st', map Deliver out ++ acts)
  | _, _ => None
  end.

(** ** Headers and the gap detector of [subscribeNewHead] *)

(** [types.Header]: its [Number] (a [*big.Int]) and the rest. *)
Record Header : Type := mkHeader {
  Number : Z;
  HeaderData : nat
}.

Definition head_lt (a b : Header) : Prop := Number a < Number b.

Definition head_event : Type := event Header Header.
Definition head_action : Type := action Header Z.

(** Where the goroutine of lines 177-218 can be blocked. *)
Inductive head_state : Type :=
| HSelect (lastHeader : option Header)
    (* in the [select] on [ctx.Done()] and [checkChan] *)
| HQuery (lastHeader : Header) (result : Header) (start : Z)
    (* in [cs.c.HeaderByNumber(ctx, start)], inside [for start.Cmp(end) < 0],
       where [end] is [result.Number] *)
| HExit.

(** The head of [for start.Cmp(end) < 0]; when the loop is left, lines
    214-215 run. *)
Definition head_loop (lastHeader result : Header) (start : Z)
  : head_state * list head_action :=
  if start <? Number result then
    (HQuery lastHeader result start, [Call start])
  else (HSelect (Some result), [Deliver result]).

Definition head_step (st : head_state) (ev : head_event)
  : option (head_state * list head_action) :=
  match st, ev with
  | HSelect _, CtxDone => Some (HExit, [])
  | HSelect None, Recv result => Some (HSelect (Some result), [Deliver result])
  | HSelect (Some lastHeader), Recv result =>
      if Number lastHeader >=? Number result then Some (HSelect (Some lastHeader), [])
      else Some (head_loop lastHeader result (Number lastHeader + 1))
  | HQuery lastHeader result start, Reply (Err err) =>
      match err with
      | DeadlineExceeded | Canceled => Some (HExit, [])
      | NotFound =>
          let '(st', acts) := head_loop lastHeader result start in
          Some (st', Sleep reconnectInterval :: acts)
      | _ =>
          let '(st', acts) := head_loop lastHeader result start in
          Some (st', Sleep reconnectInterval :: acts)
      end
  | HQuery lastHeader result start, Reply (Ok header) =>
      let '(st', acts) := head_loop lastHeader result (start + 1) in
      Some (st', Deliver header :: acts)
  | _, _ => None
  end.

(** [HeaderByNumber(ctx, n)] answers with the header of block [n]: a
    successful reply carries the number that was asked. *)
Definition honest_reply (st : head_state) (ev : head_event) : Prop :=
  match st, ev with
  | HQuery _ _ start, Reply (Ok header) => Number header = start
  | _, _ => True
  end.

(** Every reply along the trace is honest. *)
Definition head_replies_honest (st : head_state) (evs : list head_event) : Prop :=
  along head_step honest_reply st evs.

(** ** The resubscription goroutines *)

(** Where a resubscription goroutine can be blocked. *)
Inductive sup_state : Type :=
| SOpening     (* in [fn()], opening a session *)
| SActive      (* in the [select] after a session was opened *)
| SStopped.    (* returned *)

Inductive sup_event : Type :=
| Opened (r : outcome unit)   (* [fn()] returns [(sub, err)] *)
| SessionErr (err : error)    (* case err := <-sub.Err() *)
| SupCtxDone.                 (* [ctx.Done()] is closed *)

Inductive sup_action : Type :=
| Open                        (* sub, err := fn() *)
| Unsubscribe                 (* sub.Unsubscribe() *)
| SupSleep (d : Z).           (* time.Sleep(d) *)

(** The goroutine of [subscribeFilterlog], lines 134-159. *)
Definition log_sup_step (st : sup_state) (ev : sup_event)
  : option (sup_state * list sup_action) :=
  match st, ev with
  | SOpening, Opened (Err err) =>
      if is_cancel err then Some (SStopped, [])
      else Some (SOpening, [SupSleep reconnectInterval; Open])
  | SOpening, Opened (Ok _) => Some (SActive, [])
  | SActive, SessionErr _ =>
      Some (SOpening, [Unsubscribe; SupSleep reconnectInterval; Open])
  | SActive, SupCtxDone => Some (SStopped, [])
  | _, _ => None
  end.

(** The goroutine of [subscribeNewHead], lines 221-242: its [select] has
    the single case [<-sub.Err()]. *)
Definition head_sup_step (st : sup_state) (ev : sup_event)
  : option (sup_state * list sup_action) :=
  match st, ev with
  | SOpening, Opened (Err err) =>
      if is_cancel err then Some (SStopped, [])
      else Some (SOpening, [SupSleep reconnectInterval; Open])
  | SOpening, Opened (Ok _) => Some (SActive, [])
  | SActive, SessionErr _ =>
      Some (SOpening, [Unsubscribe; SupSleep reconnectInterval; Open])
  | _, _ => None
  end.

Definition is_SessionErr (ev : sup_event) : bool :=
  match ev with
  | SessionErr _ => true
  | _ => false
  end.

(** ** The check channel between the two goroutines *)

(** [checkChan] with the gap detector reading from it. *)
Record pipeline (D E : Type) : Type := mkPipe {
  chan : list E;
  det : D
}.
Arguments mkPipe {D E} chan det.
Arguments chan {D E} p.
Arguments det {D E} p.

Inductive pipe_event (E R : Type) : Type :=
| Push (e : E)               (* the live session sends [e] on [checkChan] *)
| Take                       (* the detector receives the oldest item *)
| Env (ev : event E R).      (* [ctx.Done()] or the reply of a remote call *)
Arguments Push {E R} e.
Arguments Take {E R}.
Arguments Env {E R} ev.

Definition pipe_step {D E R Q : Type}
    (step : D -> event E R -> option (D * list (action E Q)))
    (p : pipeline D E) (ev : pipe_event E R)
  : option (pipeline D E * list (action E Q)) :=
  match ev with
  | Push e => Some (mkPipe (chan p ++ [e]) (det p), [])
  | Take =>
      match chan p with
      | [] => None
      | e :: rest =>
          match step (det p) (Recv e) with
          | Some (d', acts) => Some (mkPipe rest d', acts)
          | None => None
          end
      end
  | Env (Recv _) => None
  | Env ev' =>
      match step (det p) ev' with
      | Some (d', acts) => Some (mkPipe (chan p) d', acts)
      | None => None
      end
  end.

(** The items the live session pushed, in order. *)
Fixpoint pushed {E R : Type} (evs : list (pipe_event E R)) : list E :=
  match evs with
  | [] => []
  | Push e :: evs' => e :: pushed evs'
  | _ :: evs' => pushed evs'
  end.

(** The items the detector received from [checkChan] along a run. *)
Fixpoint received {D E R Q : Type}
    (step : D -> event E R -> option (D * list (action E Q)))
    (p : pipeline D E) (evs : list (pipe_event E R)) : list E :=
  match evs with
  | [] => []
  | ev :: evs' =>
      match pipe_step step p ev with
      | None => []
      | Some (p', _) =>
          match ev, chan p with
          | Take, e :: _ => e :: received step p' evs'
          | _, _ => received step p' evs'
          end
      end
  end.

(** ** The public operations *)

(** What a subscribe operation leaves running. *)
Record subscription (D E : Type) : Type := mkSub {
  pipe : pipeline D E;
  supervisor : sup_state
}.
Arguments mkSub {D E} pipe supervisor.
Arguments pipe {D E} s.
Arguments supervisor {D E} s.

(** What a subscribe operation did: the remote calls it made itself, the
    error it returned ([None] is [nil]) and the goroutines it started. *)
Record subscribed (D E Q : Type) : Type := mkSubscribed {
  own_calls : list Q;
  returned : option error;
  started : option (subscription D E)
}.
Arguments mkSubscribed {D E Q} own_calls returned started.
Arguments own_calls {D E Q} s.
Arguments returned {D E Q} s.
Arguments started {D E Q} s.

(** [subscribeFilterlog]: starts both goroutines, returns [nil]. *)
Definition subscribeFilterlog (query : FilterQuery) (checkChan : list Log)
  : option error * subscription log_state Log :=
  (None, mkSub (mkPipe checkChan (LSelect None query)) SOpening).

(** [SubscribeFilterlogs]; [reply] is what [cs.c.FilterLogs(ctx, q)]
    returns. *)
Definition SubscribeFilterlogs (q : FilterQuery) (reply : outcome (list Log))
  : subscribed log_state Log FilterQuery :=
  match reply with
  | Err err => mkSubscribed [q] (Some err) None
  | Ok logs =>
      let '(err, sub) := subscribeFilterlog q logs in
      mkSubscribed [q] err (Some sub)
  end.

(** [subscribeNewHead]: starts both goroutines, returns [nil]. *)
Definition subscribeNewHead (checkChan : list Header)
  : option error * subscription head_state Header :=
  (None, mkSub (mkPipe checkChan (HSelect None)) SOpening).

(** [SubscribeNewHead]: [checkChan] is created empty. *)
Definition SubscribeNewHead : subscribed head_state Header Z :=
  let '(err, sub) := subscribeNewHead [] in
  mkSubscribed [] err (Some sub).

(** ** [NonceManager] *)

Module NonceManager.

(** [PendingNonceAt] under the lock: the new [nonceMap], the accounts
    asked of the remote client, and the pair returned.  [remote] is what
    [nm.client.PendingNonceAt(ctx, account)] answers when it is asked.  An
    account ([common.Address]) is a number, a nonce a uint64. *)
Definition PendingNonceAt (nonceMap : gmap N Z) (account : N) (remote : outcome Z)
  : gmap N Z * list N * (Z * option error) :=
  match nonceMap !! account with
  | Some nonce =>
      (<[account := wrap64 (nonce + 1)]> nonceMap, [], (nonce, None))
  | None =>
      match remote with
      | Err err => (nonceMap, [account], (0, Some err))
      | Ok nonce =>
          (<[account := wrap64 (nonce + 1)]> nonceMap, [account], (nonce, None))
      end
  end.

(** [NewNonceManager]: an empty map. *)
Definition NewNonceManager : gmap N Z := ∅.

(** A sequence of calls, each with the answer the remote client would
    give: the final map and what each call returned. *)
Fixpoint calls_seq (nonceMap : gmap N Z) (reqs : list (N * outcome Z))
  : gmap N Z * list (Z * option error) :=
  match reqs with
  | [] => (nonceMap, [])
  | (account, remote) :: reqs' =>
      let '(m', _, ret) := PendingNonceAt nonceMap account remote in
      let '(m'', rets) := calls_seq m' reqs' in
      (m'', ret :: rets)
  end.

End NonceManager.

(** ** Sample data *)

Definition logA : Log := mkLog 1 0 0 0.
Definition logB : Log := mkLog 2 0 0 0.
Definition logC : Log := mkLog 3 0 0 0.
Definition query0 : FilterQuery := mkQuery None None 0.

Definition query100 : FilterQuery := mkQuery (Some 1) (Some 100) 0.

Definition head1 : Header := mkHeader 1 0.
Definition head2 : Header := mkHeader 2 0.
Definition head3 : Header := mkHeader 3 0.

(** ** Strictly increasing deliveries *)

(** [chain R c ds]: starting above the cursor [c], each item of [ds] is
    [R]-above the one before it. *)
Fixpoint chain {E : Type} (R : E -> E -> Prop) (c : option E) (ds : list E) : Prop :=
  match ds with
  | [] => True
  | d :: ds' =>
      match c with
      | None => True
      | Some l => R l d
      end /\ chain R (Some d) ds'
  end.

(** The last item delivered, or the cursor if nothing was. *)
Fixpoint last_from {E : Type} (c : option E) (ds : list E) : option E :=
  match ds with
  | [] => c
  | d :: ds' => last_from (Some d) ds'
  end.

(** The stream cursor agrees with the log detector's [lastLog]. *)
Definition log_ok (st : log_state) (c : option Log) : Prop :=
  match st with
  | LSelect lastLog _ => lastLog = c
  | LQuery lastLog _ _ _ => Some lastLog = c
  | LExit => True
  end.

(** The stream cursor as the header detector knows it: [lastHeader] at the
    [select]; inside the backfill loop, the header below [start]. *)
Definition head_ok (st : head_state) (c : option Header) : Prop :=
  match st with
  | HSelect lastHeader => lastHeader = c
  | HQuery _ result start =>
      (exists h, c = Some h /\ Number h = start - 1) /\ start < Number result
  | HExit => True
  end.

(** ** Invariants of the backfill loops *)

(** In the log detector started with criterion [q0]: only [FromBlock] of
    the goroutine's query is ever rewritten, and inside the loop the pending
    query starts at [start], with [start <= end]. *)
Definition log_inv (q0 : FilterQuery) (st : log_state) : Prop :=
  match st with
  | LSelect _ query => ToBlock query = ToBlock q0 /\ Criterion query = Criterion q0
  | LQuery _ query start end_ =>
      ToBlock query = ToBlock q0 /\ Criterion query = Criterion q0
      /\ FromBlock query = Some (to_int64 start) /\ start <= end_
  | LExit => True
  end.

Definition log_action_ok (q0 : FilterQuery) (a : log_action) : Prop :=
  match a with
  | Call query => ToBlock query = ToBlock q0 /\ Criterion query = Criterion q0
  | Sleep d => d = reconnectInterval
  | Deliver _ => True
  end.

(** In the header detector: inside the loop the pending request is for a
    block strictly between [lastHeader] and the triggering header. *)
Definition head_inv (st : head_state) : Prop :=
  match st with
  | HQuery lastHeader result start =>
      Number lastHeader < start /\ start < Number result
  | _ => True
  end.

(** What a detector does on [n] transient failures in a row of the call [q]. *)
Fixpoint retries {E Q : Type} (q : Q) (n : nat) : list (action E Q) :=
  match n with
  | O => []
  | S n' => Sleep reconnectInterval :: Call q :: retries q n'
  end.

(** ** Cancellation at a blocking point of a resubscription goroutine *)

(** The ways cancellation can reach a resubscription goroutine: [ctx.Done()]
    in a [select], or a cancellation-class error from [fn()]. *)
Definition sup_cancel_events : list sup_event :=
  [SupCtxDone; Opened (Err Canceled); Opened (Err DeadlineExceeded)].

Definition stops (r : option (sup_state * list sup_action)) : bool :=
  match r with
  | Some (SStopped, _) => true
  | _ => false
  end.

(** Blocked at [st], the goroutine returns on some cancellation event. *)
Definition observes_cancel
    (step : sup_state -> sup_event -> option (sup_state * list sup_action))
    (st : sup_state) : bool :=
  existsb (fun ev => stops (step st ev)) sup_cancel_events.

(** ** Cancellation events of a detector *)


(** What a resubscription goroutine does on [n] failures in a row to open
    a session. *)
Fixpoint sup_retries (n : nat) : list sup_action :=
  match n with
  | O => []
  | S n' => SupSleep reconnectInterval :: Open :: sup_retries n'
  end.

(** ** Further observations on the goroutines *)

(** Consecutive headers. *)
Definition head_next (a b : Header) : Prop := Number b = Number a + 1.

(** The items an event offers to a detector: the raw item received, or
    the items of a successful reply. *)
Definition log_offered (ev : log_event) : list Log :=
  match ev with
  | Recv e => [e]
  | Reply (Ok vlog) => vlog
  | _ => []
  end.

Definition head_offered (ev : head_event) : list Header :=
  match ev with
  | Recv e => [e]
  | Reply (Ok header) => [header]
  | _ => []
  end.

(** Counting what a resubscription goroutine did and what happened to it. *)
Fixpoint opens (acts : list sup_action) : nat :=
  match acts with
  | [] => O
  | Open :: acts' => S (opens acts')
  | _ :: acts' => opens acts'
  end.

Fixpoint unsubscribes (acts : list sup_action) : nat :=
  match acts with
  | [] => O
  | Unsubscribe :: acts' => S (unsubscribes acts')
  | _ :: acts' => unsubscribes acts'
  end.

Fixpoint sup_sleeps (acts : list sup_action) : list Z :=
  match acts with
  | [] => []
  | SupSleep d :: acts' => d :: sup_sleeps acts'
  | _ :: acts' => sup_sleeps acts'
  end.

(** Session losses: [sub.Err()] fired. *)
Fixpoint session_errors (evs : list sup_event) : nat :=
  match evs with
  | [] => O
  | SessionErr _ :: evs' => S (session_errors evs')
  | _ :: evs' => session_errors evs'
  end.

(** Failed attempts to open a session that are not cancellations. *)
Fixpoint open_failures (evs : list sup_event) : nat :=
  match evs with
  | [] => O
  | Opened (Err err) :: evs' =>
      if is_cancel err then open_failures evs' else S (open_failures evs')
  | _ :: evs' => open_failures evs'
  end.

(** The logs of a successful [FilterLogs] reply. *)
Definition log_replied (ev : log_event) : list Log :=
  match ev with
  | Reply (Ok vlog) => vlog
  | _ => []
  end.

(** The log detector has delivered something already. *)
Definition log_has_cursor (st : log_state) : Prop :=
  match st with
  | LSelect None _ => False
  | _ => True
  end.

(** ** Sequences of [PendingNonceAt] calls, per account *)

(** What the calls for [account] returned, in order. *)
Fixpoint returns_for (account : N) (reqs : list (N * outcome Z))
    (rets : list (Z * option error)) : list (Z * option error) :=
  match reqs, rets with
  | (account', _) :: reqs', ret :: rets' =>
      if N.eqb account' account then ret :: returns_for account reqs' rets'
      else returns_for account reqs' rets'
  | _, _ => []
  end.

(** How many of the calls were for [account]. *)
Fixpoint calls_for (account : N) (reqs : list (N * outcome Z)) : nat :=
  match reqs with
  | [] => O
  | (account', _) :: reqs' =>
      if N.eqb account' account then S (calls_for account reqs')
      else calls_for account reqs'
  end.

(** An outcome that is not a cancellation-class failure. *)
Definition not_cancelled {A : Type} (r : outcome A) : Prop :=
  match r with
  | Err err => is_cancel err = false
  | Ok _ => True
  end.

(** ** The client: messages, transactions, confirmation *)

Module Client.

(** [Message] *)
Record Message : Type := mkMessage {
  From : N;                  (* common.Address: the sender *)
  PrivateKey : option N;     (* *ecdsa.PrivateKey; overwrites From if not nil *)
  To : option N;             (* *common.Address; nil for contract creation *)
  Gas : Z;                   (* uint64 *)
  GasPrice : option Z;       (* *big.Int *)
  Value : option Z;          (* *big.Int *)
  Data : list Z;             (* []byte *)
  AccessList : list N        (* types.AccessList *)
}.

(** [ethereum.CallMsg] *)
Record EthCallMsg : Type := mkCallMsg {
  cFrom : N;
  cTo : option N;
  cGas : Z;
  cGasPrice : option Z;
  cValue : option Z;
  cData : list Z;
  cAccessList : list N
}.

(** The transaction [types.NewTransaction(nonce, to, amount, gasLimit,
    gasPrice, data)] builds: its arguments. *)
Record Transaction : Type := mkTx {
  tx_nonce : Z;
  tx_to : N;
  tx_amount : option Z;
  tx_gasLimit : Z;
  tx_gasPrice : option Z;
  tx_data : list Z
}.

(** What [types.SignTx(tx, types.NewEIP2930Signer(chainID), key)] signs. *)
Record SignedTx : Type := mkSigned {
  s_tx : Transaction;
  s_chainID : Z;
  s_key : N
}.

(** [bind.TransactOpts], the fields set here. *)
Record TransactOpts : Type := mkOpts {
  o_From : N;
  o_Nonce : Z;               (* *big.Int *)
  o_Value : option Z;
  o_GasLimit : Z;
  o_GasPrice : option Z
}.

(** What the node and the libraries answer to one operation, when asked. *)
Record Node : Type := mkNode {
  CallContract : outcome (list Z);
  EstimateGas : outcome Z;
  SuggestGasPrice : outcome Z;
  RemotePendingNonce : outcome Z;
  ChainID : outcome Z;
  SignTx : option error;
  SendTransaction : option error;
  NewKeyedTransactor : option error
}.

(** The requests made to the node. *)
Inductive rpc : Type :=
| RCallContract (msg : EthCallMsg) (blockNumber : option Z)
| REstimateGas (msg : EthCallMsg)
| RSuggestGasPrice
| RPendingNonceAt (account : N)
| RChainID
| RSendTransaction (tx : SignedTx).

(** The prefixes of the [fmt.Errorf("... err: %v", err)] calls of [SendMsg]. *)
Inductive errorf_prefix : Type :=
| NewTransaction_err
| Get_Chain_ID_err
| SignTx_err
| SendTransaction_err.

(** The errors the client returns: an error passed on as it came,
    [ErrMessagePrivateKeyNil], or a new error made by [fmt.Errorf]. *)
Inductive client_error : Type :=
| Plain (err : error)
| ErrMessagePrivateKeyNil
| Errorf (prefix : errorf_prefix) (err : error).

(** How a call ends: it returns, or it panics. *)
Inductive ending (A : Type) : Type :=
| Returns (a : A)
| Panics.
Arguments Returns {A} a.
Arguments Panics {A}.

(** [Uint64] of a [big.Int]: the low 64 bits of the absolute value. *)
Definition big_Uint64 (z : Z) : Z := wrap64 (Z.abs z).

(** [common.HexToAddress("0x0")] *)
Definition zero_address : N := 0%N.

Definition with_To (msg : EthCallMsg) (to : N) : EthCallMsg :=
  mkCallMsg (cFrom msg) (Some to) (cGas msg) (cGasPrice msg) (cValue msg)
            (cData msg) (cAccessList msg).

Definition with_Gas (msg : EthCallMsg) (gas : Z) : EthCallMsg :=
  mkCallMsg (cFrom msg) (cTo msg) gas (cGasPrice msg) (cValue msg)
            (cData msg) (cAccessList msg).

Definition with_GasPrice (msg : EthCallMsg) (price : Z) : EthCallMsg :=
  mkCallMsg (cFrom msg) (cTo msg) (cGas msg) (Some price) (cValue msg)
            (cData msg) (cAccessList msg).

(** [msg.GasPrice == nil || msg.GasPrice.Uint64() == 0] *)
Definition no_gas_price (msg : EthCallMsg) : bool :=
  match cGasPrice msg with
  | None => true
  | Some price => big_Uint64 price =? 0
  end.

(** [NewTransaction]: the nonce map afterwards, the requests made, and the
    transaction or the error. *)
Definition NewTransaction (nonceMap : gmap N Z) (msg : EthCallMsg) (node : Node)
  : gmap N Z * list rpc * outcome Transaction :=
  let to := match cTo msg with
            | None => zero_address
            | Some to => to
            end in
  let msg := with_To msg to in
  let calls1 := if cGas msg =? 0 then [REstimateGas msg] else [] in
  match (if cGas msg =? 0 then EstimateGas node else Ok (cGas msg)) with
  | Err err => (nonceMap, calls1, Err err)
  | Ok gas =>
      let msg := with_Gas msg gas in
      let calls2 := if no_gas_price msg then [RSuggestGasPrice] else [] in
      match (if no_gas_price msg
             then match SuggestGasPrice node with
                  | Ok price => Ok (Some price)
                  | Err err => Err err
                  end
             else Ok (cGasPrice msg)) with
      | Err err => (nonceMap, calls1 ++ calls2, Err err)
      | Ok price =>
          let '(nonceMap', asked, (nonce, err)) :=
            NonceManager.PendingNonceAt nonceMap (cFrom msg) (RemotePendingNonce node) in
          let calls3 := map RPendingNonceAt asked in
          match err with
          | Some err => (nonceMap', calls1 ++ calls2 ++ calls3, Err err)
          | None =>
              (nonceMap', calls1 ++ calls2 ++ calls3,
               Ok (mkTx nonce to (cValue msg) gas price (cData msg)))
          end
      end
  end.

(** The nonce of a built transaction is the sender's cached one, or the
    remote pending nonce when none is cached. *)
Definition nonce_taken (nonceMap : gmap N Z) (node : Node) (from : N) (nonce : Z) : Prop :=
  match nonceMap !! from with
  | Some n => nonce = n
  | None => RemotePendingNonce node = Ok nonce
  end.

Section WithKeys.

(** [crypto.PubkeyToAddress(key.PublicKey)] *)
Variable PubkeyToAddress : N -> N.

(** The [ethereum.CallMsg] built from a message and its sender. *)
Definition ethMesg (from : N) (msg : Message) : EthCallMsg :=
  mkCallMsg from (To msg) (Gas msg) (GasPrice msg) (Value msg) (Data msg)
            (AccessList msg).

(** [CallMsg]: the request made and what [CallContract] returned. *)
Definition CallMsg (msg : Message) (blockNumber : option Z) (node : Node)
  : list rpc * outcome (list Z) :=
  let from := match PrivateKey msg with
              | Some key => PubkeyToAddress key
              | None => From msg
              end in
  ([RCallContract (ethMesg from msg) blockNumber], CallContract node).

(** [SendMsg]: the nonce map afterwards, the requests made, and how the
    call ended.  After a successful [SendTransaction] the arguments of
    [log.Debug] are evaluated, among them [msg.To.Hex()]: with [msg.To] nil
    this dereferences a nil pointer. *)
Definition SendMsg (nonceMap : gmap N Z) (msg : Message) (node : Node)
  : gmap N Z * list rpc * ending (option SignedTx * option client_error) :=
  match PrivateKey msg with
  | None => (nonceMap, [], Returns (None, Some ErrMessagePrivateKeyNil))
  | Some key =>
      let from := PubkeyToAddress key in
      let '(nonceMap', calls, r) := NewTransaction nonceMap (ethMesg from msg) node in
      match r with
      | Err err =>
          (nonceMap', calls, Returns (None, Some (Errorf NewTransaction_err err)))
      | Ok tx =>
          match ChainID node with
          | Err err =>
              (nonceMap', calls ++ [RChainID],
               Returns (None, Some (Errorf Get_Chain_ID_err err)))
          | Ok chainID =>
              match SignTx node with
              | Some err =>
                  (nonceMap', calls ++ [RChainID],
                   Returns (None, Some (Errorf SignTx_err err)))
              | None =>
                  let signedTx := mkSigned tx chainID key in
                  match SendTransaction node with
                  | Some err =>
                      (nonceMap', calls ++ [RChainID; RSendTransaction signedTx],
                       Returns (None, Some (Errorf SendTransaction_err err)))
                  | None =>
                      match To msg with
                      | None =>
                          (nonceMap', calls ++ [RChainID; RSendTransaction signedTx],
                           Panics)
                      | Some _ =>
                          (nonceMap', calls ++ [RChainID; RSendTransaction signedTx],
                           Returns (Some signedTx, None))
                      end
                  end
              end
          end
      end
  end.

(** [SafeSendMsg]: a dry run with [CallMsg(ctx, msg, nil)], then [SendMsg]. *)
Definition SafeSendMsg (nonceMap : gmap N Z) (msg : Message) (node : Node)
  : gmap N Z * list rpc * ending (option SignedTx * option client_error) :=
  let '(calls0, r) := CallMsg msg None node in
  match r with
  | Err err => (nonceMap, calls0, Returns (None, Some (Plain err)))
  | Ok _ =>
      let '(nonceMap', calls, ret) := SendMsg nonceMap msg node in
      (nonceMap', calls0 ++ calls, ret)
  end.

(** The goroutine of [BatchSendMsg] over the messages read from [msgs],
    each with the answers it meets: what is sent on [txs] and on [errs],
    and whether the goroutine got to close both channels ([Returns]) or
    died in [SendMsg] ([Panics]). *)
Fixpoint BatchSendMsg (nonceMap : gmap N Z) (msgs : list (Message * Node))
  : gmap N Z * list rpc
    * (list (option SignedTx) * list (option client_error) * ending unit) :=
  match msgs with
  | [] => (nonceMap, [], ([], [], Returns tt))
  | (msg, node) :: msgs' =>
      let '(nonceMap', calls, r) := SendMsg nonceMap msg node in
      match r with
      | Panics => (nonceMap', calls, ([], [], Panics))
      | Returns (tx, err) =>
          let '(nonceMap'', calls', (txs, errs, e)) := BatchSendMsg nonceMap' msgs' in
          (nonceMap'', calls ++ calls', (tx :: txs, err :: errs, e))
      end
  end.

(** [MessageToTransactOpts] *)
Definition MessageToTransactOpts (nonceMap : gmap N Z) (msg : Message) (node : Node)
  : gmap N Z * list rpc * (option TransactOpts * option client_error) :=
  match PrivateKey msg with
  | None => (nonceMap, [], (None, Some ErrMessagePrivateKeyNil))
  | Some key =>
      let from := PubkeyToAddress key in
      let '(nonceMap', asked, (nonce, err)) :=
        NonceManager.PendingNonceAt nonceMap from (RemotePendingNonce node) in
      let calls := map RPendingNonceAt asked in
      match err with
      | Some err => (nonceMap', calls, (None, Some (Plain err)))
      | None =>
          match ChainID node with
          | Err err => (nonceMap', calls ++ [RChainID], (None, Some (Plain err)))
          | Ok chainID =>
              match NewKeyedTransactor node with
              | Some err => (nonceMap', calls ++ [RChainID], (None, Some (Plain err)))
              | None =>
                  (nonceMap', calls ++ [RChainID],
                   (Some (mkOpts from (to_int64 nonce) (Value msg) (Gas msg)
                                 (GasPrice msg)),
                    None))
              end
          end
      end
  end.

End WithKeys.

(** *** [ConfirmTx] *)

(** A block as [ConfirmTx] reads it: its number and the hashes of its
    transactions. *)
Record Block : Type := mkBlock {
  BNumber : Z;
  BTxs : list N
}.

(** [block.Transaction(txHash) != nil] *)
Definition has_tx (txHash : N) (block : Block) : bool :=
  existsb (N.eqb txHash) (BTxs block).

Inductive block_query : Type :=
| ByHash (header : Header)      (* BlockByHash(ctx, header.Hash()) *)
| ByNumber (number : Z).        (* BlockByNumber(ctx, number) *)

(** Where [ConfirmTx] can be blocked, and what it returned. *)
Inductive confirm_state : Type :=
| CSelect (blockMinedTx : option Z)     (* in the [select] *)
| CByHash (blockMinedTx : option Z)     (* in [BlockByHash] *)
| CByNumber (blockMinedTx : Z)          (* in [BlockByNumber] *)
| CReturn (ok : bool) (err : option error).

Definition confirm_event : Type := event Header Block.
Definition confirm_action : Type := action Header block_query.

(** The loop of [ConfirmTx(txHash, n, timeout)]; [ctx.Done()] is the
    timeout. *)
Definition confirm_step (txHash : N) (n : Z) (st : confirm_state) (ev : confirm_event)
  : option (confirm_state * list confirm_action) :=
  match st, ev with
  | CSelect blockMinedTx, Recv header =>
      Some (CByHash blockMinedTx, [Call (ByHash header)])
  | CSelect _, CtxDone => Some (CReturn false None, [])
  | CByHash _, Reply (Err err) => Some (CReturn false (Some err), [])
  | CByHash None, Reply (Ok currBlock) =>
      if has_tx txHash currBlock
      then Some (CSelect (Some (BNumber currBlock)), [])
      else Some (CSelect None, [])
  | CByHash (Some blockMinedTx), Reply (Ok currBlock) =>
      if BNumber currBlock >=? blockMinedTx + to_int64 n
      then Some (CByNumber blockMinedTx, [Call (ByNumber blockMinedTx)])
      else Some (CSelect (Some blockMinedTx), [])
  | CByNumber _, Reply (Err err) => Some (CReturn false (Some err), [])
  | CByNumber _, Reply (Ok block) =>
      if has_tx txHash block
      then Some (CReturn true None, [])
      else Some (CReturn false None, [])
  | _, _ => None
  end.

(** [ConfirmTx] up to its loop: it subscribes to new heads and returns the
    subscription's error, if any. *)
Definition ConfirmTx : confirm_state :=
  match returned SubscribeNewHead with
  | Some err => CReturn false (Some err)
  | None => CSelect None
  end.

End Client.

(** ** What [ConfirmTx] has seen when it is at a given point *)

(** [past] are the events so far, [acts] the requests made so far. *)
Definition confirm_inv (txHash : N) (n : Z) (st : Client.confirm_state)
    (past : list Client.confirm_event) (acts : list Client.confirm_action) : Prop :=
  match st with
  | Client.CSelect None | Client.CByHash None => True
  | Client.CSelect (Some m) =>
      exists pre b1 mid,
        past = pre ++ Reply (Ok b1) :: mid
        /\ Client.has_tx txHash b1 = true /\ Client.BNumber b1 = m
  | Client.CByHash (Some m) =>
      exists pre b1 mid h,
        past = pre ++ Reply (Ok b1) :: mid ++ [Recv h]
        /\ Client.has_tx txHash b1 = true /\ Client.BNumber b1 = m
  | Client.CByNumber m =>
      exists pre b1 mid h b2,
        past = pre ++ Reply (Ok b1) :: mid ++ [Recv h; Reply (Ok b2)]
        /\ Client.has_tx txHash b1 = true /\ Client.BNumber b1 = m
        /\ Client.BNumber b2 >= m + to_int64 n
        /\ last (calls acts) = Some (Client.ByNumber m)
  | Client.CReturn true err =>
      err = None
      /\ exists pre b1 mid h b2 b3,
           past = pre ++ Reply (Ok b1) :: mid ++ [Recv h; Reply (Ok b2); Reply (Ok b3)]
           /\ Client.has_tx txHash b1 = true
           /\ Client.BNumber b2 >= Client.BNumber b1 + to_int64 n
           /\ Client.has_tx txHash b3 = true
           /\ last (calls acts) = Some (Client.ByNumber (Client.BNumber b1))
  | Client.CReturn false (Some err) => exists pre, past = pre ++ [Reply (Err err)]
  | Client.CReturn false None =>
      (exists pre, past = pre ++ [CtxDone])
      \/ (exists pre b3, past = pre ++ [Reply (Ok b3)]
                         /\ Client.has_tx txHash b3 = false)
  end.

(* ===================================================================== *)
(** * Part II: properties                                                 *)
(* ===================================================================== *)

(** ** Projections of action lists *)

Section Actions.
Context {E Q : Type}.
Implicit Types acts : list (action E Q).

Lemma delivered_app acts acts' :
  delivered (acts ++ acts') = delivered acts ++ delivered acts'.
Proof.
  induction acts as [|[e|q|d] acts IH]; simpl; [reflexivity|..]; rewrite IH; reflexivity.
Qed.

Lemma delivered_map_Deliver (out : list E) :
  delivered (map (@Deliver E Q) out) = out.
Proof. induction out as [|e out IH]; simpl; [|rewrite IH]; reflexivity. Qed.
End Actions.

(** ** Chains *)

Section Chains.
Context {E : Type} (R : E -> E -> Prop).
Implicit Types (c : option E) (ds : list E) (l : E).

Lemma chain_app c ds ds' :
  chain R c (ds ++ ds') <-> chain R c ds /\ chain R (last_from c ds) ds'.
Proof.
  revert c. induction ds as [|d ds IH]; intros c; simpl.
  - tauto.
  - rewrite IH. tauto.
Qed.

Lemma last_from_app c ds ds' :
  last_from c (ds ++ ds') = last_from (last_from c ds) ds'.
Proof. revert c. induction ds as [|d ds IH]; intros c; simpl; [reflexivity|apply IH]. Qed.

Lemma last_from_None ds : last_from None ds = last ds.
Proof.
  destruct ds as [|d ds]; [reflexivity|]. simpl.
  revert d. induction ds as [|d' ds IH]; intros d; simpl; [reflexivity|].
  rewrite IH. reflexivity.
Qed.

Hypothesis R_trans : forall x y z, R x y -> R y z -> R x z.

Lemma chain_Forall l ds : chain R (Some l) ds -> Forall (R l) ds.
Proof.
  revert l. induction ds as [|d ds IH]; intros l; simpl.
  - constructor.
  - intros [Hld Hds]. constructor; [exact Hld|].
    eapply Forall_impl; [apply IH, Hds|].
    intros x Hx. simpl in Hx. eapply R_trans; eassumption.
Qed.

Lemma chain_StronglySorted c ds : chain R c ds -> StronglySorted R ds.
Proof.
  revert c. induction ds as [|d ds IH]; intros c; simpl.
  - constructor.
  - intros [_ Hds]. constructor; [eapply IH, Hds|].
    apply chain_Forall, Hds.
Qed.
End Chains.

(** ** The order computed by [hasSeen] *)

Lemma key_lt_trans a b c : key_lt a b -> key_lt b c -> key_lt a c.
Proof.
  destruct a as [[a1 a2] a3], b as [[b1 b2] b3], c as [[c1 c2] c3].
  unfold key_lt. lia.
Qed.

Lemma key_lt_irrefl a : ~ key_lt a a.
Proof. destruct a as [[a1 a2] a3]. unfold key_lt. lia. Qed.

Lemma log_lt_trans x y z : log_lt x y -> log_lt y z -> log_lt x z.
Proof. unfold log_lt. apply key_lt_trans. Qed.

Lemma hasSeen_false lastLog commingLog :
  hasSeen lastLog commingLog = false <-> log_lt lastLog commingLog.
Proof.
  unfold hasSeen, log_lt, log_key, key_lt.
  rewrite !Z.gtb_ltb, Z.geb_leb.
  destruct (Z.ltb_spec (BlockNumber commingLog) (BlockNumber lastLog));
  destruct (Z.eqb_spec (BlockNumber lastLog) (BlockNumber commingLog));
  destruct (Z.ltb_spec (TxIndex commingLog) (TxIndex lastLog));
  destruct (Z.eqb_spec (TxIndex lastLog) (TxIndex commingLog));
  destruct (Z.leb_spec (Index commingLog) (Index lastLog));
  simpl; split; intros; try discriminate; try lia.
Qed.

Lemma hasSeen_true lastLog commingLog :
  hasSeen lastLog commingLog = true <-> key_le (log_key commingLog) (log_key lastLog).
Proof.
  unfold hasSeen, key_le, log_key, key_lt.
  rewrite !Z.gtb_ltb, Z.geb_leb.
  destruct (Z.ltb_spec (BlockNumber commingLog) (BlockNumber lastLog));
  destruct (Z.eqb_spec (BlockNumber lastLog) (BlockNumber commingLog));
  destruct (Z.ltb_spec (TxIndex commingLog) (TxIndex lastLog));
  destruct (Z.eqb_spec (TxIndex lastLog) (TxIndex commingLog));
  destruct (Z.leb_spec (Index commingLog) (Index lastLog));
  simpl; split; intros HH; try discriminate; try reflexivity;
  try (destruct HH as [HH|HH]; [lia|injection HH; intros; lia]).
  all: try (left; lia).
  all: try (destruct (Z.eq_dec (Index commingLog) (Index lastLog)) as [Hi|Hi];
            [right; congruence|left; lia]).
Qed.

Lemma not_seen_block_le lastLog commingLog :
  hasSeen lastLog commingLog = false -> BlockNumber lastLog <= BlockNumber commingLog.
Proof. rewrite hasSeen_false. unfold log_lt, log_key, key_lt. lia. Qed.

(** ** Invariants of a run *)

Section RunInvariant.
Context {St E R Q : Type}.
Context (step : St -> event E R -> option (St * list (action E Q))).
Context (lt : E -> E -> Prop) (ok : St -> option E -> Prop).
Context (good : St -> event E R -> Prop).

Hypothesis step_ok : forall st ev st' acts c,
  good st ev -> step st ev = Some (st', acts) -> ok st c ->
  chain lt c (delivered acts) /\ ok st' (last_from c (delivered acts)).

Lemma run_ok evs : forall st st' acts c,
  along step good st evs ->
  run step st evs = Some (st', acts) -> ok st c ->
  chain lt c (delivered acts) /\ ok st' (last_from c (delivered acts)).
Proof.
  induction evs as [|ev evs IH]; intros st st' acts c Hgood Hrun Hok; simpl in *.
  - injection Hrun as <- <-. simpl. auto.
  - destruct Hgood as [Hev Hrest].
    destruct (step st ev) as [[st1 acts1]|] eqn:Hstep; [|discriminate].
    destruct (run step st1 evs) as [[st2 acts2]|] eqn:Hrun'; [|discriminate].
    injection Hrun as <- <-.
    destruct (step_ok _ _ _ _ c Hev Hstep Hok) as [Hc1 Hok1].
    destruct (IH _ _ _ _ Hrest Hrun' Hok1) as [Hc2 Hok2].
    rewrite delivered_app, chain_app, last_from_app. auto.
Qed.
End RunInvariant.

Lemma along_True {St Ev A : Type} (step : St -> Ev -> option (St * list A)) evs :
  forall st, along step (fun _ _ => True) st evs.
Proof.
  induction evs as [|ev evs IH]; intros st; simpl; [exact I|].
  split; [exact I|]. destruct (step st ev) as [[st' acts]|]; [apply IH|exact I].
Qed.

(** ** The log detector keeps the cursor *)

Lemma deliver_missing_chain vlog : forall lastLog last' out,
  deliver_missing lastLog vlog = (last', out) ->
  chain log_lt (Some lastLog) out /\ last_from (Some lastLog) out = Some last'.
Proof.
  induction vlog as [|l vlog IH]; intros lastLog last' out Hd; simpl in Hd.
  - injection Hd as <- <-. simpl. auto.
  - destruct (hasSeen lastLog l) eqn:Hseen.
    + apply IH, Hd.
    + destruct (deliver_missing l vlog) as [l' o] eqn:Hrec.
      injection Hd as <- <-. simpl.
      destruct (IH _ _ _ Hrec) as [Hc Hl].
      apply hasSeen_false in Hseen. auto.
Qed.

Lemma log_loop_quiet lastLog query start end_ st acts :
  log_loop lastLog query start end_ = (st, acts) ->
  delivered acts = [] /\ log_ok st (Some lastLog).
Proof.
  unfold log_loop. destruct (start <=? end_); intros H; injection H as <- <-; simpl; auto.
Qed.

Lemma log_step_ok st ev st' acts c :
  log_step st ev = Some (st', acts) -> log_ok st c ->
  chain log_lt c (delivered acts) /\ log_ok st' (last_from c (delivered acts)).
Proof.
  destruct st as [[lastLog|] query|lastLog query start end_|];
    destruct ev as [commingLog| |[vlog|err]]; simpl; intros Hstep Hok;
    try discriminate; subst.
  - destruct (hasSeen lastLog commingLog) eqn:Hseen.
    + injection Hstep as <- <-. simpl. auto.
    + injection Hstep as Hstep. apply log_loop_quiet in Hstep as [-> Hst]. simpl. auto.
  - injection Hstep as <- <-. simpl. auto.
  - injection Hstep as <- <-. simpl. auto.
  - injection Hstep as <- <-. simpl. auto.
  - destruct (deliver_missing lastLog vlog) as [last' out] eqn:Hd.
    destruct (log_loop last' query (wrap64 (end_ + 1)) end_) as [st1 acts1] eqn:Hl.
    injection Hstep as <- <-.
    apply deliver_missing_chain in Hd as [Hc Hlast].
    apply log_loop_quiet in Hl as [Hq Hst].
    rewrite delivered_app, delivered_map_Deliver, Hq, app_nil_r, Hlast. auto.
  - destruct (is_cancel err).
    + injection Hstep as <- <-. simpl. auto.
    + destruct (log_loop lastLog query start end_) as [st1 acts1] eqn:Hl.
      injection Hstep as <- <-. apply log_loop_quiet in Hl as [Hq Hst].
      simpl. rewrite Hq. simpl. auto.
Qed.

(** ** The header detector keeps the cursor, the node being honest *)

Lemma head_step_ok st ev st' acts c :
  honest_reply st ev -> head_step st ev = Some (st', acts) -> head_ok st c ->
  chain head_lt c (delivered acts) /\ head_ok st' (last_from c (delivered acts)).
Proof.
  unfold head_lt.
  destruct st as [[lastHeader|]|lastHeader result start|];
    destruct ev as [r| |[header|err]]; simpl; intros Hhon Hstep Hok;
    try discriminate; try subst c.
  - destruct (Z.geb_spec (Number lastHeader) (Number r)).
    + injection Hstep as <- <-. simpl. auto.
    + injection Hstep as Hstep. unfold head_loop in Hstep.
      destruct (Z.ltb_spec (Number lastHeader + 1) (Number r));
        injection Hstep as <- <-; simpl.
      * repeat split; [|lia]. exists lastHeader. split; [reflexivity|lia].
      * repeat split; lia.
  - injection Hstep as <- <-. simpl. auto.
  - injection Hstep as <- <-. simpl. auto.
  - injection Hstep as <- <-. simpl. auto.
  - destruct Hok as [(h & -> & Hh) Hlt]. unfold head_loop in Hstep.
    destruct (Z.ltb_spec (start + 1) (Number result));
      injection Hstep as <- <-; simpl.
    + repeat split; [lia| |lia]. exists header. split; [reflexivity|lia].
    + repeat split; lia.
  - destruct Hok as [(h & -> & Hh) Hlt]. unfold head_loop in Hstep.
    destruct (Z.ltb_spec start (Number result)); [|lia].
    destruct err; injection Hstep as <- <-; simpl; auto;
      (repeat split; [|lia]); exists h; auto.
Qed.

Lemma StronglySorted_NoDup_keys {E K : Type} (R : E -> E -> Prop) (f : E -> K) ds :
  (forall x y, R x y -> f x <> f y) ->
  StronglySorted R ds -> NoDup (map f ds).
Proof.
  intros Hne Hs. induction Hs as [|d ds Hs IH Hall]; simpl.
  - apply NoDup_nil_2.
  - apply NoDup_cons_2; [|exact IH].
    rewrite list_elem_of_In, in_map_iff. intros (x & Hfx & Hin).
    rewrite Forall_forall in Hall.
    apply (Hne d x); [|congruence].
    apply Hall. apply list_elem_of_In. exact Hin.
Qed.

(** ** C6: classification of a raw item *)

(** C6.  For every raw item [e]: with [lastSeen] unset, [e] is delivered and
    becomes [lastSeen]; otherwise [e] is dropped (nothing delivered, nothing
    asked of the node, cursor unchanged) exactly when its sequence key is at
    most [lastSeen]'s, the order being lexicographic on
    (BlockNumber, TxIndex, Index) for logs, which is what [hasSeen] computes,
    and on the block number for headers. *)
Theorem duplicate_classification :
  (forall lastLog e,
      hasSeen lastLog e = true <-> key_le (log_key e) (log_key lastLog)) /\
  (forall query e,
      log_step (LSelect None query) (Recv e)
      = Some (LSelect (Some e) query, [Deliver e])) /\
  (forall lastLog query e,
      log_step (LSelect (Some lastLog) query) (Recv e)
      = Some (LSelect (Some lastLog) query, [])
      <-> key_le (log_key e) (log_key lastLog)) /\
  (forall e,
      head_step (HSelect None) (Recv e) = Some (HSelect (Some e), [Deliver e])) /\
  (forall lastHeader e,
      head_step (HSelect (Some lastHeader)) (Recv e)
      = Some (HSelect (Some lastHeader), [])
      <-> Number e <= Number lastHeader).
Proof.
  split; [exact hasSeen_true|].
  split; [reflexivity|].
  split; [|split; [reflexivity|]].
  - intros lastLog query e. rewrite <- hasSeen_true. simpl.
    destruct (hasSeen lastLog e) eqn:Hseen.
    + split; reflexivity.
    + split; [|discriminate].
      apply not_seen_block_le in Hseen. unfold log_loop.
      destruct (Z.leb_spec (BlockNumber lastLog) (BlockNumber e)); [|lia].
      discriminate.
  - intros lastHeader e. simpl.
    destruct (Z.geb_spec (Number lastHeader) (Number e)).
    + split; [lia|reflexivity].
    + split; [|lia]. unfold head_loop.
      destruct (Number lastHeader + 1 <? Number e); discriminate.
Qed.

(** ** C2: deliveries are strictly increasing *)

(** C2 (as the code has it).  Whatever arrives on the check channel and
    whatever the backfill queries answer, the logs sent to the consumer are
    strictly increasing in the lexicographic key; the headers are strictly
    increasing in block number provided the node answers
    [HeaderByNumber(n)] with a header numbered [n], the backfilled header
    being sent as it comes, without comparison with the cursor; hence no key
    is sent twice.  Whenever a detector is back at its [select], ready for
    the next raw item, its cursor is the last item sent (for logs also
    inside the backfill loop). *)
Theorem delivery_strictly_increasing
    (q : FilterQuery) (levs : list log_event)
    (lst : log_state) (lacts : list log_action)
    (hevs : list head_event) (hst : head_state) (hacts : list head_action)
    (Hlog : run log_step (LSelect None q) levs = Some (lst, lacts))
    (Hhead : run head_step (HSelect None) hevs = Some (hst, hacts))
    (Hhonest : head_replies_honest (HSelect None) hevs) :
  (StronglySorted log_lt (delivered lacts)
   /\ NoDup (map log_key (delivered lacts))
   /\ (forall lastLog query, lst = LSelect lastLog query ->
        lastLog = last (delivered lacts))
   /\ (forall lastLog query start end_, lst = LQuery lastLog query start end_ ->
        Some lastLog = last (delivered lacts)))
  /\
  (StronglySorted head_lt (delivered hacts)
   /\ NoDup (map Number (delivered hacts))
   /\ forall lastHeader, hst = HSelect lastHeader ->
        lastHeader = last (delivered hacts)).
Proof.
  split.
  - destruct (run_ok log_step log_lt log_ok (fun _ _ => True)
                (fun st ev st' acts c _ => log_step_ok st ev st' acts c)
                levs _ _ _ None (along_True _ _ _) Hlog eq_refl) as [Hc Hok].
    assert (Hs : StronglySorted log_lt (delivered lacts))
      by (eapply chain_StronglySorted; [exact log_lt_trans|exact Hc]).
    split; [exact Hs|split].
    + eapply StronglySorted_NoDup_keys; [|exact Hs].
      intros x y Hxy Heq. unfold log_lt in Hxy. rewrite Heq in Hxy.
      exact (key_lt_irrefl _ Hxy).
    + rewrite last_from_None in Hok.
      split; [intros lastLog query ->|intros lastLog query start end_ ->]; exact Hok.
  - destruct (run_ok head_step head_lt head_ok honest_reply head_step_ok
                hevs _ _ _ None Hhonest Hhead eq_refl) as [Hc Hok].
    assert (Hs : StronglySorted head_lt (delivered hacts)).
    { eapply chain_StronglySorted; [|exact Hc]. unfold head_lt. intros; lia. }
    split; [exact Hs|split].
    + eapply StronglySorted_NoDup_keys; [|exact Hs].
      unfold head_lt. intros x y Hxy Heq. lia.
    + intros lastHeader ->. simpl in Hok. rewrite last_from_None in Hok. exact Hok.
Qed.

Lemma delivery_strictly_increasing_witness :
  (StronglySorted log_lt [logA; logB; logC]
   /\ NoDup (map log_key [logA; logB; logC])
   /\ (forall lastLog query,
        LSelect (Some logC) (set_FromBlock query0 1) = LSelect lastLog query ->
        lastLog = Some logC)
   /\ (forall lastLog query start end_,
        LSelect (Some logC) (set_FromBlock query0 1) = LQuery lastLog query start end_ ->
        Some lastLog = Some logC))
  /\
  (StronglySorted head_lt [head1; head2; head3]
   /\ NoDup (map Number [head1; head2; head3])
   /\ forall lastHeader, HSelect (Some head3) = HSelect lastHeader ->
        lastHeader = Some head3).
Proof.
  apply (delivery_strictly_increasing query0
           [Recv logA; Recv logC; Reply (Ok [logA; logB; logC])]
           (LSelect (Some logC) (set_FromBlock query0 1))
           [Deliver logA; Call (set_FromBlock query0 1); Deliver logB; Deliver logC]
           [Recv head1; Recv head3; Reply (Ok head2)]
           (HSelect (Some head3))
           [Deliver head1; Call 2; Deliver head2; Deliver head3]).
  - reflexivity.
  - reflexivity.
  - simpl. repeat split; reflexivity.
Defined.

(** C2, as stated, fails for headers: the header a backfill pass gets
    from [HeaderByNumber] is sent without any check.  With cursor 1 and
    triggering header 3, an answer numbered 7 to the request for block 2
    makes the consumer receive 1, 7, 3 and, after the next raw item, 4; an
    answer numbered 3 makes it receive the key 3 twice. *)
Lemma unchecked_backfilled_header_breaks_order :
  run head_step (HSelect None)
      [Recv head1; Recv head3; Reply (Ok (mkHeader 7 9)); Recv (mkHeader 4 0)]
  = Some (HSelect (Some (mkHeader 4 0)),
          [Deliver head1; Call 2; Deliver (mkHeader 7 9); Deliver head3;
           Deliver (mkHeader 4 0)])
  /\ ~ StronglySorted head_lt
         (delivered [Deliver head1; Call 2; Deliver (mkHeader 7 9); Deliver head3;
                     Deliver (mkHeader 4 0) : head_action])
  /\ run head_step (HSelect None)
         [Recv head1; Recv head3; Reply (Ok (mkHeader 3 9))]
     = Some (HSelect (Some head3),
             [Deliver head1; Call 2; Deliver (mkHeader 3 9); Deliver head3])
  /\ ~ NoDup (map Number
                (delivered [Deliver head1; Call 2; Deliver (mkHeader 3 9);
                            Deliver head3 : head_action])).
Proof.
  split; [reflexivity|]. split; [|split; [reflexivity|]].
  - simpl. intros Hs.
    apply StronglySorted_inv in Hs as [Hs _].
    apply StronglySorted_inv in Hs as [_ Hall].
    apply List.Forall_inv in Hall. unfold head_lt in Hall. simpl in Hall. lia.
  - simpl. intros Hd.
    apply NoDup_cons in Hd as [_ Hd]. apply NoDup_cons in Hd as [Hnotin _].
    apply Hnotin. constructor.
Qed.

(** ** Invariants preserved by every step *)

Section StepInvariant.
Context {St Ev A : Type} (step : St -> Ev -> option (St * list A)).
Context (Inv : St -> Prop) (P : A -> Prop).

Hypothesis step_inv : forall st ev st' acts,
  Inv st -> step st ev = Some (st', acts) -> Inv st' /\ Forall P acts.

Lemma run_inv evs : forall st st' acts,
  Inv st -> run step st evs = Some (st', acts) -> Inv st' /\ Forall P acts.
Proof.
  induction evs as [|ev evs IH]; intros st st' acts Hinv Hrun; simpl in Hrun.
  - injection Hrun as <- <-. split; [exact Hinv|constructor].
  - destruct (step st ev) as [[st1 acts1]|] eqn:Hstep; [|discriminate].
    destruct (run step st1 evs) as [[st2 acts2]|] eqn:Hrun'; [|discriminate].
    injection Hrun as <- <-.
    destruct (step_inv _ _ _ _ Hinv Hstep) as [Hinv1 HP1].
    destruct (IH _ _ _ Hinv1 Hrun') as [Hinv2 HP2].
    split; [exact Hinv2|]. apply Forall_app. auto.
Qed.
End StepInvariant.

Lemma log_loop_inv q0 lastLog query start end_ st acts :
  ToBlock query = ToBlock q0 -> Criterion query = Criterion q0 ->
  log_loop lastLog query start end_ = (st, acts) ->
  log_inv q0 st /\ Forall (log_action_ok q0) acts.
Proof.
  intros Ht Hc. unfold log_loop.
  destruct (Z.leb_spec start end_); intros Heq; injection Heq as <- <-; simpl.
  - repeat split; auto. repeat constructor; auto.
  - repeat split; auto.
Qed.

Lemma Forall_map_Deliver q0 (out : list Log) :
  Forall (log_action_ok q0) (map Deliver out).
Proof. induction out; simpl; constructor; simpl; auto. Qed.

Lemma log_step_inv q0 st ev st' acts :
  log_inv q0 st -> log_step st ev = Some (st', acts) ->
  log_inv q0 st' /\ Forall (log_action_ok q0) acts.
Proof.
  destruct st as [[lastLog|] query|lastLog query start end_|];
    destruct ev as [commingLog| |[vlog|err]]; simpl; intros Hinv Hstep;
    try discriminate.
  - destruct Hinv as [Ht Hc]. destruct (hasSeen lastLog commingLog).
    + injection Hstep as <- <-. simpl. auto.
    + injection Hstep as Hstep. eapply log_loop_inv; eassumption.
  - injection Hstep as <- <-. simpl. auto.
  - injection Hstep as <- <-. simpl. split; [exact Hinv|].
    repeat constructor.
  - injection Hstep as <- <-. simpl. auto.
  - destruct Hinv as (Ht & Hc & _).
    destruct (deliver_missing lastLog vlog) as [last' out].
    destruct (log_loop last' query (wrap64 (end_ + 1)) end_) as [st1 acts1] eqn:Hl.
    injection Hstep as <- <-.
    destruct (log_loop_inv q0 _ _ _ _ _ _ Ht Hc Hl) as [Hi Ha].
    split; [exact Hi|]. apply Forall_app. split; [apply Forall_map_Deliver|exact Ha].
  - destruct Hinv as (Ht & Hc & _). destruct (is_cancel err).
    + injection Hstep as <- <-. simpl. auto.
    + destruct (log_loop lastLog query start end_) as [st1 acts1] eqn:Hl.
      injection Hstep as <- <-.
      destruct (log_loop_inv q0 _ _ _ _ _ _ Ht Hc Hl) as [Hi Ha].
      split; [exact Hi|]. constructor; [reflexivity|exact Ha].
Qed.

Lemma log_reachable_inv q0 evs st acts :
  run log_step (LSelect None q0) evs = Some (st, acts) ->
  log_inv q0 st /\ Forall (log_action_ok q0) acts.
Proof.
  apply (run_inv log_step (log_inv q0) (log_action_ok q0) (log_step_inv q0)).
  simpl. auto.
Qed.

Lemma head_step_inv st ev st' acts :
  head_inv st -> head_step st ev = Some (st', acts) ->
  head_inv st' /\ Forall (fun _ => True) acts.
Proof.
  intros Hinv Hstep. split; [|apply Forall_forall; auto].
  destruct st as [[lastHeader|]|lastHeader result start|];
    destruct ev as [r| |[header|err]]; simpl in *; try discriminate.
  - destruct (Z.geb_spec (Number lastHeader) (Number r)).
    + injection Hstep as <- <-. exact I.
    + injection Hstep as Hstep. unfold head_loop in Hstep.
      destruct (Z.ltb_spec (Number lastHeader + 1) (Number r));
        injection Hstep as <- <-; simpl; auto. lia.
  - injection Hstep as <- <-. exact I.
  - injection Hstep as <- <-. exact I.
  - injection Hstep as <- <-. exact I.
  - unfold head_loop in Hstep.
    destruct (Z.ltb_spec (start + 1) (Number result));
      injection Hstep as <- <-; simpl; auto. lia.
  - unfold head_loop in Hstep.
    destruct (Z.ltb_spec start (Number result)); [|lia].
    destruct err; injection Hstep as <- <-; simpl; auto.
Qed.

Lemma head_reachable_inv evs st acts :
  run head_step (HSelect None) evs = Some (st, acts) -> head_inv st.
Proof.
  intros Hrun.
  refine (proj1 (run_inv head_step head_inv (fun _ => True) head_step_inv
                   evs (HSelect None) st acts _ Hrun)).
  exact I.
Qed.

Lemma set_FromBlock_same query start :
  FromBlock query = Some (to_int64 start) -> set_FromBlock query start = query.
Proof. destruct query as [f t c]. unfold set_FromBlock. simpl. intros ->. reflexivity. Qed.

Lemma to_int64_small z : 0 <= z < 2 ^ 63 -> to_int64 z = z.
Proof.
  intros Hz. unfold to_int64, wrap64, two64.
  rewrite Z.mod_small by lia.
  destruct (Z.ltb_spec z (2 ^ 63)); lia.
Qed.

(** ** C5: failures of the backfill query *)

Lemma log_retries lastLog query start end_ (errs : list error) :
  FromBlock query = Some (to_int64 start) -> start <= end_ ->
  Forall (fun err => is_cancel err = false) errs ->
  run log_step (LQuery lastLog query start end_) (map (fun err => Reply (Err err)) errs)
  = Some (LQuery lastLog query start end_, retries query (length errs)).
Proof.
  intros Hfrom Hle Herrs. induction Herrs as [|err errs Herr _ IH]; simpl.
  - reflexivity.
  - rewrite Herr. unfold log_loop.
    destruct (Z.leb_spec start end_); [|lia].
    rewrite (set_FromBlock_same _ _ Hfrom), IH. reflexivity.
Qed.

Lemma head_retries lastHeader result start (errs : list error) :
  start < Number result ->
  Forall (fun err => is_cancel err = false) errs ->
  run head_step (HQuery lastHeader result start) (map (fun err => Reply (Err err)) errs)
  = Some (HQuery lastHeader result start, retries start (length errs)).
Proof.
  intros Hlt Herrs. induction Herrs as [|err errs Herr _ IH]; simpl.
  - reflexivity.
  - unfold head_loop. destruct (Z.ltb_spec start (Number result)); [|lia].
    destruct err; try discriminate; rewrite IH; reflexivity.
Qed.

Lemma delivered_retries {E Q : Type} (q : Q) n : delivered (@retries E Q q n) = [].
Proof. induction n as [|n IH]; simpl; [reflexivity|exact IH]. Qed.

(** C5.  In a backfill loop (any state reachable inside it, log or header
    variant): a cancellation-class failure of the query makes the detector
    return at once, nothing more being sent; any other failure makes it
    sleep [reconnectInterval] and ask the same query again, it stays in the
    same state, and this repeats for any number of failures in a row,
    nothing being sent to the consumer. *)
Theorem backfill_failure_handling
    (q0 : FilterQuery) (levs : list log_event)
    (lastLog : Log) (query : FilterQuery) (start end_ : Z) (lacts : list log_action)
    (hevs : list head_event)
    (lastHeader result : Header) (hstart : Z) (hacts : list head_action)
    (Hlog : run log_step (LSelect None q0) levs
            = Some (LQuery lastLog query start end_, lacts))
    (Hhead : run head_step (HSelect None) hevs
             = Some (HQuery lastHeader result hstart, hacts)) :
  (forall err, is_cancel err = true ->
     log_step (LQuery lastLog query start end_) (Reply (Err err)) = Some (LExit, [])
     /\ head_step (HQuery lastHeader result hstart) (Reply (Err err)) = Some (HExit, []))
  /\
  (forall err, is_cancel err = false ->
     log_step (LQuery lastLog query start end_) (Reply (Err err))
     = Some (LQuery lastLog query start end_, [Sleep reconnectInterval; Call query])
     /\ head_step (HQuery lastHeader result hstart) (Reply (Err err))
        = Some (HQuery lastHeader result hstart, [Sleep reconnectInterval; Call hstart]))
  /\
  (forall errs, Forall (fun err => is_cancel err = false) errs ->
     run log_step (LQuery lastLog query start end_)
         (map (fun err => Reply (Err err)) errs)
     = Some (LQuery lastLog query start end_, retries query (length errs))
     /\ run head_step (HQuery lastHeader result hstart)
            (map (fun err => Reply (Err err)) errs)
        = Some (HQuery lastHeader result hstart, retries hstart (length errs))
     /\ delivered (@retries Log FilterQuery query (length errs)) = []
     /\ delivered (@retries Header Z hstart (length errs)) = []).
Proof.
  apply log_reachable_inv in Hlog as [(_ & _ & Hfrom & Hle) _].
  apply head_reachable_inv in Hhead as [_ Hlt].
  split; [|split].
  - intros err Herr. simpl. rewrite Herr.
    destruct err; simpl in Herr; try discriminate Herr; auto.
  - intros err Herr.
    simpl. rewrite Herr. unfold log_loop, head_loop.
    destruct (Z.leb_spec start end_); [|lia].
    destruct (Z.ltb_spec hstart (Number result)); [|lia].
    rewrite (set_FromBlock_same _ _ Hfrom).
    destruct err; simpl in Herr; try discriminate Herr; auto.
  - intros errs Herrs.
    split; [apply log_retries; assumption|].
    split; [apply head_retries; assumption|].
    split; apply delivered_retries.
Qed.

Lemma backfill_failure_handling_witness :
  run log_step (LQuery logA (set_FromBlock query0 1) 1 3)
      (map (fun err => Reply (Err err)) [NotFound; OtherErr 7; OtherErr 7])
  = Some (LQuery logA (set_FromBlock query0 1) 1 3, retries (set_FromBlock query0 1) 3)
  /\ run head_step (HQuery head1 head3 2)
         (map (fun err => Reply (Err err)) [NotFound; OtherErr 7; OtherErr 7])
     = Some (HQuery head1 head3 2, retries 2 3)
  /\ delivered (@retries Log FilterQuery (set_FromBlock query0 1) 3) = []
  /\ delivered (@retries Header Z 2 3) = [].
Proof.
  refine (proj2 (proj2
    (backfill_failure_handling query0 [Recv logA; Recv logC]
       logA (set_FromBlock query0 1) 1 3 [Deliver logA; Call (set_FromBlock query0 1)]
       [Recv head1; Recv head3] head1 head3 2 [Deliver head1; Call 2]
       _ _)) [NotFound; OtherErr 7; OtherErr 7] _).
  - reflexivity.
  - reflexivity.
  - repeat constructor.
Defined.

(** ** C1: what a gap-closing pass of the log detector delivers *)

Lemma filter_all_above lastLog (ds : list Log) :
  Forall (log_lt lastLog) ds ->
  List.filter (fun l => negb (hasSeen lastLog l)) ds = ds.
Proof.
  induction 1 as [|d ds Hd _ IH]; simpl; [reflexivity|].
  apply hasSeen_false in Hd. rewrite Hd. simpl. rewrite IH. reflexivity.
Qed.

Lemma deliver_missing_sorted vlog : forall lastLog,
  StronglySorted log_lt vlog ->
  snd (deliver_missing lastLog vlog)
  = List.filter (fun l => negb (hasSeen lastLog l)) vlog.
Proof.
  induction vlog as [|l vlog IH]; intros lastLog Hs; simpl; [reflexivity|].
  apply StronglySorted_inv in Hs as [Hs Hall].
  destruct (hasSeen lastLog l) eqn:Hseen; simpl.
  - apply IH, Hs.
  - specialize (IH l Hs). destruct (deliver_missing l vlog) as [l' o]. simpl in *.
    rewrite IH. f_equal.
    rewrite !filter_all_above; [reflexivity| |exact Hall].
    apply hasSeen_false in Hseen.
    eapply Forall_impl; [exact Hall|].
    intros x Hx. simpl in Hx. eapply log_lt_trans; eassumption.
Qed.

(** C1 (as the code has it).  In a log subscription, when a raw item [e]
    arrives above [lastSeen], the detector asks the backfill query from
    [lastSeen]'s block onwards and sends the consumer the returned items
    that pass the duplicate check against the advancing cursor, and nothing
    else: [e] itself is not sent after the pass; with an ordered reply it
    reaches the consumer exactly when the reply contains it.  For raw items
    A(1), C(3): a reply [B(2); C(3)] yields A, B, C. *)
Theorem gap_pass_delivers_reply
    (lastLog e : Log) (query : FilterQuery) (vlog : list Log)
    (Hgap : log_lt lastLog e) :
  (exists st rest,
     run log_step (LSelect (Some lastLog) query) [Recv e; Reply (Ok vlog)]
     = Some (st, Call (set_FromBlock query (BlockNumber lastLog))
                 :: map Deliver (snd (deliver_missing lastLog vlog)) ++ rest)
     /\ delivered rest = []
     /\ (0 <= BlockNumber e < uint64_max ->
         st = LSelect (Some (fst (deliver_missing lastLog vlog)))
                      (set_FromBlock query (BlockNumber lastLog))
         /\ rest = []))
  /\ (StronglySorted log_lt vlog ->
      snd (deliver_missing lastLog vlog)
      = List.filter (fun l => negb (hasSeen lastLog l)) vlog
      /\ (In e (snd (deliver_missing lastLog vlog)) <-> In e vlog))
  /\ run log_step (LSelect None query0)
         [Recv logA; Recv logC; Reply (Ok [logB; logC])]
     = Some (LSelect (Some logC) (set_FromBlock query0 1),
             [Deliver logA; Call (set_FromBlock query0 1); Deliver logB; Deliver logC]).
Proof.
  split; [|split; [|reflexivity]].
  - pose proof Hgap as Hseen. apply hasSeen_false in Hseen.
    pose proof (not_seen_block_le _ _ Hseen) as Hle.
    simpl. rewrite Hseen. unfold log_loop at 1.
    destruct (Z.leb_spec (BlockNumber lastLog) (BlockNumber e)); [|lia].
    simpl. destruct (deliver_missing lastLog vlog) as [last' out]. simpl.
    destruct (log_loop last' (set_FromBlock query (BlockNumber lastLog))
                (wrap64 (BlockNumber e + 1)) (BlockNumber e)) as [st1 acts1] eqn:Hl.
    exists st1, acts1. rewrite app_nil_r. split; [reflexivity|].
    split; [eapply log_loop_quiet; exact Hl|].
    intros Hrange. unfold log_loop in Hl.
    assert (Hw : wrap64 (BlockNumber e + 1) = BlockNumber e + 1).
    { unfold wrap64. apply Z.mod_small. unfold uint64_max in Hrange. lia. }
    rewrite Hw in Hl.
    destruct (Z.leb_spec (BlockNumber e + 1) (BlockNumber e)); [lia|].
    injection Hl as <- <-. auto.
  - intros Hs. rewrite (deliver_missing_sorted vlog lastLog Hs).
    split; [reflexivity|].
    rewrite filter_In. apply hasSeen_false in Hgap. rewrite Hgap. simpl. tauto.
Qed.

Lemma gap_pass_delivers_reply_witness :
  exists st rest,
    run log_step (LSelect (Some logA) query0) [Recv logC; Reply (Ok [logB])]
    = Some (st, Call (set_FromBlock query0 (BlockNumber logA))
                :: map Deliver (snd (deliver_missing logA [logB])) ++ rest)
    /\ delivered rest = []
    /\ (0 <= BlockNumber logC < uint64_max ->
        st = LSelect (Some (fst (deliver_missing logA [logB])))
                     (set_FromBlock query0 (BlockNumber logA))
        /\ rest = []).
Proof.
  refine (proj1 (gap_pass_delivers_reply logA logC query0 [logB] _)).
  unfold log_lt, log_key, key_lt. simpl. lia.
Defined.

(** C1, as stated, fails: with raw items A(1), C(3) and the backfill query
    answering exactly [B(2)], the consumer gets A, B and the detector is
    back at its [select] with cursor B; C was not sent. *)
Lemma single_gap_trigger_not_delivered :
  run log_step (LSelect None query0) [Recv logA; Recv logC; Reply (Ok [logB])]
  = Some (LSelect (Some logB) (set_FromBlock query0 1),
          [Deliver logA; Call (set_FromBlock query0 1); Deliver logB])
  /\ delivered [Deliver logA; Call (set_FromBlock query0 1); Deliver logB]
     <> [logA; logB; logC].
Proof. split; [reflexivity|discriminate]. Qed.

(** ** C4: the range of the backfill queries *)

Lemma head_pass lastHeader result (hs : list Header) : forall start st acts,
  start <= Number result ->
  length hs = Z.to_nat (Number result - start) ->
  head_loop lastHeader result start = (st, acts) ->
  exists acts',
    run head_step st (map (fun h => Reply (Ok h)) hs)
    = Some (HSelect (Some result), acts')
    /\ calls (acts ++ acts') = seqZ start (Number result - start)
    /\ delivered (acts ++ acts') = hs ++ [result].
Proof.
  induction hs as [|h hs IH]; intros start st acts Hle Hlen Hloop;
    unfold head_loop in Hloop; simpl in Hlen.
  - assert (start = Number result) as -> by lia.
    rewrite Z.ltb_irrefl in Hloop. injection Hloop as <- <-.
    exists []. simpl. rewrite Z.sub_diag. auto.
  - destruct (Z.ltb_spec start (Number result)); [|lia].
    injection Hloop as <- <-. simpl.
    destruct (head_loop lastHeader result (start + 1)) as [st1 acts1] eqn:Hl.
    destruct (IH (start + 1) st1 acts1) as (acts2 & Hrun & Hcalls & Hdel);
      [lia|lia|exact Hl|].
    rewrite Hrun. exists ((Deliver h :: acts1) ++ acts2).
    split; [reflexivity|].
    change (start :: calls (acts1 ++ acts2)
              = seqZ start (Number result - start)
            /\ h :: delivered (acts1 ++ acts2) = (h :: hs) ++ [result]).
    rewrite Hcalls, Hdel.
    split; [|reflexivity].
    rewrite (seqZ_cons start) by lia. f_equal. f_equal; lia.
Qed.

(** C4 (as the code has it).  In the log variant a gap-closing pass asks
    the subscription's criterion with only the lower bound rewritten, to
    [lastSeen]'s block number (inclusive, through [int64]); the upper bound
    and the rest of the criterion stay those given at subscribe time, in
    every query of the run.  In the header variant a pass asks for single
    blocks, one by one, from [lastSeen]'s number plus one to the triggering
    header's number minus one, then sends the triggering header. *)
Theorem backfill_query_range
    (q0 : FilterQuery) (evs : list log_event) (lastLog e : Log)
    (query : FilterQuery) (acts : list log_action)
    (lastHeader result : Header) (hs : list Header)
    (Hreach : run log_step (LSelect None q0) evs
              = Some (LSelect (Some lastLog) query, acts))
    (Hgap : log_lt lastLog e)
    (Hhgap : Number lastHeader < Number result)
    (Hhs : length hs = Z.to_nat (Number result - Number lastHeader - 1)) :
  (log_step (LSelect (Some lastLog) query) (Recv e)
   = Some (LQuery lastLog
             (mkQuery (Some (to_int64 (BlockNumber lastLog))) (ToBlock q0) (Criterion q0))
             (BlockNumber lastLog) (BlockNumber e),
           [Call (mkQuery (Some (to_int64 (BlockNumber lastLog)))
                          (ToBlock q0) (Criterion q0))])
   /\ (0 <= BlockNumber lastLog < 2 ^ 63 ->
       to_int64 (BlockNumber lastLog) = BlockNumber lastLog)
   /\ Forall (log_action_ok q0) acts)
  /\
  (exists hacts,
     run head_step (HSelect (Some lastHeader))
         (Recv result :: map (fun h => Reply (Ok h)) hs)
     = Some (HSelect (Some result), hacts)
     /\ calls hacts = seqZ (Number lastHeader + 1) (Number result - Number lastHeader - 1)
     /\ delivered hacts = hs ++ [result]).
Proof.
  split.
  - apply log_reachable_inv in Hreach as [[Ht Hc] Hacts].
    split; [|split; [apply to_int64_small|exact Hacts]].
    pose proof Hgap as Hseen. apply hasSeen_false in Hseen.
    pose proof (not_seen_block_le _ _ Hseen) as Hle.
    simpl. rewrite Hseen. unfold log_loop, set_FromBlock.
    destruct (Z.leb_spec (BlockNumber lastLog) (BlockNumber e)); [|lia].
    rewrite Ht, Hc. reflexivity.
  - simpl. destruct (Z.geb_spec (Number lastHeader) (Number result)); [lia|].
    destruct (head_loop lastHeader result (Number lastHeader + 1)) as [st1 acts1] eqn:Hl.
    destruct (head_pass lastHeader result hs (Number lastHeader + 1) st1 acts1)
      as (acts2 & Hrun & Hcalls & Hdel); [lia| |exact Hl|].
    { rewrite Hhs. f_equal. lia. }
    rewrite Hrun. exists (acts1 ++ acts2). split; [reflexivity|].
    rewrite Hcalls, Hdel. split; [f_equal; lia|reflexivity].
Qed.

Lemma backfill_query_range_witness :
  (log_step (LSelect (Some logA) query100) (Recv logC)
   = Some (LQuery logA (mkQuery (Some (to_int64 1)) (Some 100) 0) 1 3,
           [Call (mkQuery (Some (to_int64 1)) (Some 100) 0)])
   /\ (0 <= 1 < 2 ^ 63 -> to_int64 1 = 1)
   /\ Forall (log_action_ok query100) [Deliver logA])
  /\
  (exists hacts,
     run head_step (HSelect (Some head1)) [Recv head3; Reply (Ok head2)]
     = Some (HSelect (Some head3), hacts)
     /\ calls hacts = seqZ 2 1
     /\ delivered hacts = [head2; head3]).
Proof.
  apply (backfill_query_range query100 [Recv logA] logA logC
           query100 [Deliver logA] head1 head3 [head2]).
  - reflexivity.
  - unfold log_lt, log_key, key_lt. simpl. lia.
  - simpl. lia.
  - reflexivity.
Defined.

(** C4, as stated, fails in both variants.  Logs: with cursor A (block 1),
    criterion upper bound 100 and triggering log C (block 3), the query
    asked ends at block 100, not 3.  Headers: with cursor 1 and triggering
    header 3 the only block asked is 2, neither 1 nor 3. *)
Lemma backfill_range_not_cursor_to_trigger :
  log_step (LSelect (Some logA) query100) (Recv logC)
  = Some (LQuery logA (mkQuery (Some 1) (Some 100) 0) 1 3,
          [Call (mkQuery (Some 1) (Some 100) 0)])
  /\ Some 100 <> Some (BlockNumber logC)
  /\ run head_step (HSelect (Some head1)) [Recv head3; Reply (Ok head2)]
     = Some (HSelect (Some head3), [Call 2; Deliver head2; Deliver head3])
  /\ ~ In (Number head1) [2] /\ ~ In (Number head3) [2].
Proof.
  split; [reflexivity|]. split; [discriminate|]. split; [reflexivity|].
  split; simpl; intros [H|[]]; discriminate.
Qed.

(** ** C3: cancellation *)

(** C3, evaluated on the code.  Cancellation is observed at every blocking
    point of the two gap detectors (the [select] returns on [ctx.Done()],
    the pending query on a cancellation-class error), a returned detector
    does nothing any more, and both resubscription goroutines return when
    [fn()] fails by cancellation.  The log variant's wait on the session
    also returns on [ctx.Done()]; the header variant's does not: blocked
    there it reacts to the session's error only, so after a successful open
    it cannot return on cancellation. *)
Theorem head_supervisor_misses_cancellation :
  (forall lastLog query, log_step (LSelect lastLog query) CtxDone = Some (LExit, []))
  /\ (forall lastLog query start end_,
        log_step (LQuery lastLog query start end_) (Reply (Err Canceled))
        = Some (LExit, []))
  /\ (forall lastHeader, head_step (HSelect lastHeader) CtxDone = Some (HExit, []))
  /\ (forall lastHeader result start,
        head_step (HQuery lastHeader result start) (Reply (Err Canceled))
        = Some (HExit, []))
  /\ (forall ev, log_step LExit ev = None)
  /\ (forall ev, head_step HExit ev = None)
  /\ observes_cancel log_sup_step SOpening = true
  /\ observes_cancel head_sup_step SOpening = true
  /\ observes_cancel log_sup_step SActive = true
  /\ observes_cancel head_sup_step SActive = false
  /\ (forall ev, head_sup_step SActive ev = None \/ is_SessionErr ev = true)
  /\ run log_sup_step SOpening [Opened (Ok tt); SupCtxDone] = Some (SStopped, [])
  /\ run head_sup_step SOpening [Opened (Ok tt); SupCtxDone] = None.
Proof.
  repeat split; try reflexivity.
  - intros lastLog query. destruct lastLog; reflexivity.
  - intros lastHeader. destruct lastHeader; reflexivity.
  - intros ev. destruct ev; simpl; auto.
Qed.

(** ** C10: opening the head subscription *)

Lemma head_open_retries (errs : list error) (tail : list sup_event) :
  Forall (fun err => is_cancel err = false) errs ->
  run head_sup_step SOpening (map (fun err => Opened (Err err)) errs ++ tail)
  = match run head_sup_step SOpening tail with
    | Some (st, acts) => Some (st, sup_retries (length errs) ++ acts)
    | None => None
    end.
Proof.
  induction 1 as [|err errs Herr _ IH]; simpl.
  - destruct (run head_sup_step SOpening tail) as [[st acts]|]; reflexivity.
  - rewrite Herr, IH.
    destruct (run head_sup_step SOpening tail) as [[st acts]|]; reflexivity.
Qed.

(** C10 (as the code has it).  [SubscribeNewHead] returns [nil] and starts
    both goroutines without any remote call of its own.  A failure of
    [fn()] is handled by the resubscription goroutine: on a
    cancellation-class error it returns, on any other error it sleeps
    [reconnectInterval] and opens again, for any number of failures in a
    row, until a session is opened. *)
Theorem subscribe_heads_never_fails
    (errs : list error)
    (Herrs : Forall (fun err => is_cancel err = false) errs) :
  returned SubscribeNewHead = None
  /\ own_calls SubscribeNewHead = []
  /\ started SubscribeNewHead = Some (mkSub (mkPipe [] (HSelect None)) SOpening)
  /\ (forall err,
        head_sup_step SOpening (Opened (Err err))
        = if is_cancel err then Some (SStopped, [])
          else Some (SOpening, [SupSleep reconnectInterval; Open]))
  /\ run head_sup_step SOpening (map (fun err => Opened (Err err)) errs)
     = Some (SOpening, sup_retries (length errs))
  /\ run head_sup_step SOpening
         (map (fun err => Opened (Err err)) errs ++ [Opened (Ok tt)])
     = Some (SActive, sup_retries (length errs)).
Proof.
  repeat split.
  - pose proof (head_open_retries errs [] Herrs) as H.
    rewrite app_nil_r in H. simpl in H. rewrite app_nil_r in H. exact H.
  - rewrite (head_open_retries errs [Opened (Ok tt)] Herrs). simpl.
    rewrite app_nil_r. reflexivity.
Qed.

Lemma subscribe_heads_never_fails_witness :
  run head_sup_step SOpening
      (map (fun err => Opened (Err err)) [NotFound; OtherErr 3] ++ [Opened (Ok tt)])
  = Some (SActive, sup_retries 2).
Proof.
  refine (proj2 (proj2 (proj2 (proj2 (proj2
    (subscribe_heads_never_fails [NotFound; OtherErr 3] _)))))).
  repeat constructor.
Defined.

(** C10, as stated, fails: when opening fails with [context.Canceled] the
    goroutine returns; there is no sleep and no second attempt. *)
Lemma open_cancelled_not_retried :
  head_sup_step SOpening (Opened (Err Canceled)) = Some (SStopped, [])
  /\ head_sup_step SStopped (Opened (Ok tt)) = None
  /\ head_sup_step SOpening (Opened (Err Canceled))
     <> Some (SOpening, [SupSleep reconnectInterval; Open]).
Proof. repeat split; discriminate. Qed.

(** ** The check channel is first-in first-out *)

Section Pipeline.
Context {D E R Q : Type}.
Context (step : D -> event E R -> option (D * list (action E Q))).

Lemma received_prefix (evs : list (pipe_event E R)) : forall p : pipeline D E,
  received step p evs `prefix_of` chan p ++ pushed evs.
Proof.
  induction evs as [|ev evs IH]; intros p; simpl.
  - apply prefix_nil.
  - destruct (pipe_step step p ev) as [[p' acts]|] eqn:Hstep; [|apply prefix_nil].
    destruct ev as [e| |ev']; simpl in Hstep.
    + injection Hstep as <- _. specialize (IH (mkPipe (chan p ++ [e]) (det p))).
      simpl in IH. rewrite <- app_assoc in IH. exact IH.
    + destruct (chan p) as [|e rest] eqn:Hchan; [discriminate|].
      destruct (step (det p) (Recv e)) as [[d' acts']|]; [|discriminate].
      injection Hstep as <- _. specialize (IH (mkPipe rest d')). simpl in *.
      apply prefix_cons. exact IH.
    + assert (Hc : chan p' = chan p).
      { destruct ev' as [e| |r]; [discriminate| |];
          destruct (step (det p) _) as [[d' acts']|]; try discriminate;
          injection Hstep as <- _; reflexivity. }
      rewrite <- Hc. destruct (chan p); apply IH.
Qed.
End Pipeline.

(** ** C7: the eager backfill of [SubscribeFilterlogs] *)

Lemma log_pass lastLog e query vlog :
  log_lt lastLog e -> 0 <= BlockNumber e < uint64_max ->
  log_step (LSelect (Some lastLog) query) (Recv e)
  = Some (LQuery lastLog (set_FromBlock query (BlockNumber lastLog))
                 (BlockNumber lastLog) (BlockNumber e),
          [Call (set_FromBlock query (BlockNumber lastLog))])
  /\ log_step (LQuery lastLog (set_FromBlock query (BlockNumber lastLog))
                      (BlockNumber lastLog) (BlockNumber e))
              (Reply (Ok vlog))
     = Some (LSelect (Some (fst (deliver_missing lastLog vlog)))
                     (set_FromBlock query (BlockNumber lastLog)),
             map Deliver (snd (deliver_missing lastLog vlog))).
Proof.
  intros Hgap Hrange. pose proof Hgap as Hseen. apply hasSeen_false in Hseen.
  pose proof (not_seen_block_le _ _ Hseen) as Hle.
  simpl. rewrite Hseen. unfold log_loop.
  destruct (Z.leb_spec (BlockNumber lastLog) (BlockNumber e)); [|lia].
  split; [reflexivity|].
  destruct (deliver_missing lastLog vlog) as [last' out]. simpl.
  assert (Hw : wrap64 (BlockNumber e + 1) = BlockNumber e + 1).
  { unfold wrap64. apply Z.mod_small. unfold uint64_max in Hrange. lia. }
  rewrite Hw. destruct (Z.leb_spec (BlockNumber e + 1) (BlockNumber e)); [lia|].
  rewrite app_nil_r. reflexivity.
Qed.

(** C7 (as the code has it).  [SubscribeFilterlogs] makes exactly one query
    of its own, with the criterion as given, before anything is started; the
    matches are put on the check channel in the order returned, ahead of
    whatever the live session pushes, and the detector receives the channel
    in that order.  The first match is sent to the consumer at once; the
    second is not sent directly but triggers a gap-recovery query, and if
    that query answers an ordered list containing the other matches, all of
    them are sent, in order, before any live item is received.
    [SubscribeNewHead] makes no query; the first header pushed by the live
    session is the first one sent. *)
Theorem eager_backfill_then_live
    (q : FilterQuery) (logs : list Log) (evs : list (pipe_event Log (list Log)))
    (h1 h2 : Log) (rest vlog : list Log)
    (Hsorted : StronglySorted log_lt (h1 :: h2 :: rest))
    (Hvlog : StronglySorted log_lt vlog)
    (Hincl : forall l, In l (h2 :: rest) -> In l vlog)
    (Hrange : 0 <= BlockNumber h2 < uint64_max) :
  SubscribeFilterlogs q (Ok logs)
  = mkSubscribed [q] None (Some (mkSub (mkPipe logs (LSelect None q)) SOpening))
  /\ received log_step (mkPipe logs (LSelect None q)) evs `prefix_of` logs ++ pushed evs
  /\ pipe_step log_step (mkPipe (h1 :: h2 :: rest) (LSelect None q)) Take
     = Some (mkPipe (h2 :: rest) (LSelect (Some h1) q), [Deliver h1])
  /\ (exists lastLog acts,
        run (pipe_step log_step) (mkPipe (h1 :: h2 :: rest) (LSelect None q))
            [Take; Take; Env (Reply (Ok vlog))]
        = Some (mkPipe rest (LSelect (Some lastLog) (set_FromBlock q (BlockNumber h1))),
                acts)
        /\ delivered acts = h1 :: List.filter (fun l => negb (hasSeen h1 l)) vlog
        /\ forall l, In l (h1 :: h2 :: rest) -> In l (delivered acts))
  /\ SubscribeNewHead
     = mkSubscribed [] None (Some (mkSub (mkPipe [] (HSelect None)) SOpening))
  /\ (forall h,
        run (pipe_step head_step) (mkPipe [] (HSelect None)) [Push h; Take]
        = Some (mkPipe [] (HSelect (Some h)), [Deliver h])).
Proof.
  split; [reflexivity|]. split; [apply (received_prefix log_step evs)|].
  split; [reflexivity|]. split; [|split; reflexivity].
  apply StronglySorted_inv in Hsorted as [Hs2 Hall].
  pose proof Hall as Hall'. apply Forall_inv in Hall'.
  destruct (log_pass h1 h2 q vlog Hall' Hrange) as [Hstep1 Hstep2].
  exists (fst (deliver_missing h1 vlog)),
    (Deliver h1 :: Call (set_FromBlock q (BlockNumber h1))
     :: map Deliver (snd (deliver_missing h1 vlog))).
  split.
  { unfold run, pipe_step. cbn [chan det].
    change (log_step (LSelect None q) (Recv h1))
      with (Some (LSelect (Some h1) q, [Deliver h1 : log_action])).
    cbn [chan det]. rewrite Hstep1. cbn [chan det]. rewrite Hstep2.
    rewrite app_nil_r. reflexivity. }
  cbn [delivered].
  rewrite delivered_map_Deliver, (deliver_missing_sorted vlog h1 Hvlog).
  split; [reflexivity|].
  intros l [<-|Hin]; [left; reflexivity|right].
  rewrite filter_In. split; [apply Hincl, Hin|].
  rewrite Forall_forall in Hall. specialize (Hall l).
  assert (Hlt : log_lt h1 l) by (apply Hall, list_elem_of_In, Hin).
  apply hasSeen_false in Hlt. rewrite Hlt. reflexivity.
Qed.

(** Strict sortedness of a literal list of logs. *)
Ltac sorted_logs :=
  repeat first [ apply SSorted_nil | apply SSorted_cons
               | apply List.Forall_nil | apply List.Forall_cons ];
  unfold log_lt, log_key, key_lt; simpl; lia.

Lemma eager_backfill_then_live_witness :
  exists lastLog acts,
    run (pipe_step log_step) (mkPipe [logA; logB] (LSelect None query0))
        [Take; Take; Env (Reply (Ok [logA; logB; logC]))]
    = Some (mkPipe [] (LSelect (Some lastLog) (set_FromBlock query0 (BlockNumber logA))),
            acts)
    /\ delivered acts
       = logA :: List.filter (fun l => negb (hasSeen logA l)) [logA; logB; logC]
    /\ forall l, In l [logA; logB] -> In l (delivered acts).
Proof.
  refine (proj1 (proj2 (proj2 (proj2
    (eager_backfill_then_live query0 [logA; logB] [Take; Push logC]
       logA logB [] [logA; logB; logC] _ _ _ _))))).
  - sorted_logs.
  - sorted_logs.
  - simpl. tauto.
  - unfold uint64_max, two64, logB, BlockNumber. lia.
Defined.

(** C7, as stated, fails: the eager query returns [A(1); B(2)]; by the time
    B triggers its gap-recovery query the node answers [A] only, and when the
    live item C(3) arrives it answers [A; C].  The consumer gets A, C: the
    historical match B is never sent, the live item C is. *)
Lemma historical_match_not_delivered :
  started (SubscribeFilterlogs query0 (Ok [logA; logB]))
  = Some (mkSub (mkPipe [logA; logB] (LSelect None query0)) SOpening)
  /\ run (pipe_step log_step) (mkPipe [logA; logB] (LSelect None query0))
         [Take; Take; Env (Reply (Ok [logA])); Push logC; Take;
          Env (Reply (Ok [logA; logC]))]
     = Some (mkPipe [] (LSelect (Some logC) (set_FromBlock query0 1)),
             [Deliver logA; Call (set_FromBlock query0 1);
              Call (set_FromBlock query0 1); Deliver logC])
  /\ ~ In logB (delivered [Deliver logA; Call (set_FromBlock query0 1);
                           Call (set_FromBlock query0 1); Deliver logC]).
Proof.
  split; [reflexivity|]. split; [reflexivity|].
  simpl. intros [H|[H|[]]]; discriminate.
Qed.

(** ** C8: errors of [SubscribeFilterlogs] *)






(** ** C9: [NonceManager.PendingNonceAt] *)

Module NonceFacts.
Import NonceManager.

Lemma wrap64_succ v : 0 <= v < uint64_max -> wrap64 (v + 1) = v + 1.
Proof. intros Hv. unfold wrap64. apply Z.mod_small. unfold uint64_max in Hv. lia. Qed.

Lemma cached (nonceMap : gmap N Z) account nonce remote :
  nonceMap !! account = Some nonce ->
  PendingNonceAt nonceMap account remote
  = (<[account := wrap64 (nonce + 1)]> nonceMap, [], (nonce, None)).
Proof. intros H. unfold PendingNonceAt. rewrite H. reflexivity. Qed.

Lemma other_account (nonceMap : gmap N Z) account account' remote :
  account <> account' ->
  (PendingNonceAt nonceMap account' remote).1.1 !! account = nonceMap !! account.
Proof.
  intros Hne. unfold PendingNonceAt.
  destruct (nonceMap !! account') as [n|]; simpl.
  - apply lookup_insert_ne. congruence.
  - destruct remote as [v|err]; simpl; [|reflexivity].
    apply lookup_insert_ne. congruence.
Qed.

Lemma others_keep (reqs : list (N * outcome Z)) : forall (nonceMap : gmap N Z) account,
  Forall (fun req => req.1 <> account) reqs ->
  (calls_seq nonceMap reqs).1 !! account = nonceMap !! account.
Proof.
  induction reqs as [|[account' remote] reqs IH]; intros nonceMap account Hall;
    simpl; [reflexivity|].
  apply Forall_cons in Hall as [Hne Hall]. simpl in Hne.
  pose proof (other_account nonceMap account account' remote) as Ho.
  destruct (PendingNonceAt nonceMap account' remote) as [[m' asked] ret].
  specialize (IH m' account Hall).
  destruct (calls_seq m' reqs) as [m'' rets]. simpl in *.
  rewrite IH. apply Ho. congruence.
Qed.
End NonceFacts.

(** C9 (as the code has it).  [PendingNonceAt] asks the remote client
    exactly when the account has no cached nonce, that is on every call up
    to the first one that succeeds; a failed remote query returns [(0, err)]
    and leaves the map as it was.  After a successful call returning [v],
    and any calls for other accounts in between, the next call for the
    account does not ask the remote client and returns [v + 1] wrapped to 64
    bits: exactly one more unless [v] is the largest uint64, where it is 0. *)
Theorem nonce_sequence
    (nonceMap m1 : gmap N Z) (account : N) (remote remote' : outcome Z)
    (asked : list N) (v : Z) (others : list (N * outcome Z))
    (Hcall : NonceManager.PendingNonceAt nonceMap account remote
             = (m1, asked, (v, None)))
    (Hothers : Forall (fun req => req.1 <> account) others) :
  (asked = match nonceMap !! account with Some _ => [] | None => [account] end)
  /\ (nonceMap !! account = None -> remote = Ok v)
  /\ NonceManager.PendingNonceAt (NonceManager.calls_seq m1 others).1 account remote'
     = (<[account := wrap64 (wrap64 (v + 1) + 1)]> (NonceManager.calls_seq m1 others).1,
        [], (wrap64 (v + 1), None))
  /\ (0 <= v < uint64_max -> wrap64 (v + 1) = v + 1)
  /\ wrap64 (uint64_max + 1) = 0
  /\ (forall (m : gmap N Z) a err,
        m !! a = None ->
        NonceManager.PendingNonceAt m a (Err err) = (m, [a], (0, Some err))).
Proof.
  assert (Hm1 : m1 !! account = Some (wrap64 (v + 1))
                /\ asked = match nonceMap !! account with Some _ => [] | None => [account] end
                /\ (nonceMap !! account = None -> remote = Ok v)).
  { unfold NonceManager.PendingNonceAt in Hcall.
    destruct (nonceMap !! account) as [n|] eqn:Hl.
    - injection Hcall as <- <- <-. rewrite lookup_insert_eq.
      split; [reflexivity|]. split; [reflexivity|discriminate].
    - destruct remote as [n|err]; [|discriminate].
      injection Hcall as <- <- <-. rewrite lookup_insert_eq. auto. }
  destruct Hm1 as (Hm1 & Hasked & Hremote).
  split; [exact Hasked|]. split; [exact Hremote|].
  split; [|split; [apply NonceFacts.wrap64_succ|split; [reflexivity|]]].
  - apply NonceFacts.cached. rewrite NonceFacts.others_keep by exact Hothers.
    exact Hm1.
  - intros m a err Hnone. unfold NonceManager.PendingNonceAt. rewrite Hnone.
    reflexivity.
Qed.

Lemma nonce_sequence_witness :
  NonceManager.PendingNonceAt
    (NonceManager.calls_seq (<[1%N := 8]> NonceManager.NewNonceManager)
       [(2%N, Ok 40); (3%N, Err NotFound)]).1 1%N (Err NotFound)
  = (<[1%N := wrap64 (wrap64 (7 + 1) + 1)]>
       (NonceManager.calls_seq (<[1%N := 8]> NonceManager.NewNonceManager)
          [(2%N, Ok 40); (3%N, Err NotFound)]).1,
     [], (wrap64 (7 + 1), None)).
Proof.
  refine (proj1 (proj2 (proj2
    (nonce_sequence NonceManager.NewNonceManager
       (<[1%N := 8]> NonceManager.NewNonceManager) 1%N (Ok 7) (Err NotFound)
       [1%N] 7 [(2%N, Ok 40); (3%N, Err NotFound)] _ _)))).
  - reflexivity.
  - repeat constructor; discriminate.
Defined.

(** C9, as stated, fails twice.  The remote client answering the largest
    uint64, the first call returns it and the second returns 0, not one
    more.  And after a first call that failed, the second call for the same
    account asks the remote client again. *)
Lemma nonce_wraps_and_requeries :
  (NonceManager.PendingNonceAt NonceManager.NewNonceManager 1%N (Ok uint64_max)).2
  = (uint64_max, None)
  /\ (NonceManager.PendingNonceAt
        (NonceManager.PendingNonceAt NonceManager.NewNonceManager 1%N
           (Ok uint64_max)).1.1 1%N (Ok 5)).2
     = (0, None)
  /\ 0 <> uint64_max + 1
  /\ (NonceManager.PendingNonceAt NonceManager.NewNonceManager 1%N (Err NotFound)).1.2
     = [1%N]
  /\ (NonceManager.PendingNonceAt
        (NonceManager.PendingNonceAt NonceManager.NewNonceManager 1%N
           (Err NotFound)).1.1 1%N (Ok 5)).1.2
     = [1%N].
Proof.
  repeat split; try reflexivity. discriminate.
Qed.

(* ===================================================================== *)
(** * Part III: further properties of the code                            *)
(* ===================================================================== *)

(** ** Headers are delivered without holes *)

Lemma head_step_next st ev st' acts c :
  honest_reply st ev -> head_step st ev = Some (st', acts) -> head_ok st c ->
  chain head_next c (delivered acts) /\ head_ok st' (last_from c (delivered acts)).
Proof.
  unfold head_next.
  destruct st as [[lastHeader|]|lastHeader result start|];
    destruct ev as [r| |[header|err]]; simpl; intros Hhon Hstep Hok;
    try discriminate; try subst c.
  - destruct (Z.geb_spec (Number lastHeader) (Number r)).
    + injection Hstep as <- <-. simpl. auto.
    + injection Hstep as Hstep. unfold head_loop in Hstep.
      destruct (Z.ltb_spec (Number lastHeader + 1) (Number r));
        injection Hstep as <- <-; simpl.
      * repeat split; [|lia]. exists lastHeader. split; [reflexivity|lia].
      * repeat split; lia.
  - injection Hstep as <- <-. simpl. auto.
  - injection Hstep as <- <-. simpl. auto.
  - injection Hstep as <- <-. simpl. auto.
  - destruct Hok as [(h & -> & Hh) Hlt]. unfold head_loop in Hstep.
    destruct (Z.ltb_spec (start + 1) (Number result));
      injection Hstep as <- <-; simpl.
    + repeat split; [lia| |lia]. exists header. split; [reflexivity|lia].
    + repeat split; lia.
  - destruct Hok as [(h & -> & Hh) Hlt]. unfold head_loop in Hstep.
    destruct (Z.ltb_spec start (Number result)); [|lia].
    destruct err; injection Hstep as <- <-; simpl; auto;
      (repeat split; [|lia]); exists h; auto.
Qed.

Lemma chain_next_numbers (ds : list Header) : forall l,
  chain head_next (Some l) ds ->
  map Number ds = seqZ (Number l + 1) (Z.of_nat (length ds)).
Proof.
  induction ds as [|d ds IH]; intros l; simpl; [reflexivity|].
  intros [Hld Hds]. unfold head_next in Hld.
  rewrite (seqZ_cons (Number l + 1)) by lia.
  rewrite (IH d Hds). f_equal; [lia|]. f_equal; lia.
Qed.

(** X1.  With a node that answers [HeaderByNumber(n)] with header [n], the
    headers sent to the consumer carry consecutive block numbers, starting
    from the first header received: whatever the live session skips or
    repeats, the consumer sees no hole and no repetition. *)
Theorem headers_delivered_consecutively
    (evs : list head_event) (st : head_state) (acts : list head_action)
    (first : Header) (others : list Header)
    (Hrun : run head_step (HSelect None) evs = Some (st, acts))
    (Hhonest : head_replies_honest (HSelect None) evs)
    (Hdel : delivered acts = first :: others) :
  map Number (delivered acts)
  = seqZ (Number first) (Z.of_nat (length (delivered acts))).
Proof.
  destruct (run_ok head_step head_next head_ok honest_reply head_step_next
              evs _ _ _ None Hhonest Hrun eq_refl) as [Hc _].
  rewrite Hdel in *. simpl in Hc. destruct Hc as [_ Hc].
  apply chain_next_numbers in Hc. simpl length.
  rewrite (seqZ_cons (Number first)) by lia.
  simpl. rewrite Hc. f_equal. f_equal; lia.
Qed.

Lemma headers_delivered_consecutively_witness :
  map Number [head1; head2; head3] = seqZ 1 3.
Proof.
  apply (headers_delivered_consecutively
           [Recv head1; Recv head3; Reply (Err NotFound); Reply (Ok head2); Recv head2]
           (HSelect (Some head3))
           [Deliver head1; Call 2; Sleep reconnectInterval; Call 2;
            Deliver head2; Deliver head3]
           head1 [head2; head3]).
  - reflexivity.
  - simpl. repeat split; reflexivity.
  - reflexivity.
Defined.

(** ** Processing a backfill reply *)

Lemma deliver_missing_app (vlog1 : list Log) : forall lastLog vlog2,
  deliver_missing lastLog (vlog1 ++ vlog2)
  = (fst (deliver_missing (fst (deliver_missing lastLog vlog1)) vlog2),
     snd (deliver_missing lastLog vlog1)
     ++ snd (deliver_missing (fst (deliver_missing lastLog vlog1)) vlog2)).
Proof.
  induction vlog1 as [|l vlog1 IH]; intros lastLog vlog2; simpl.
  - destruct (deliver_missing lastLog vlog2); reflexivity.
  - destruct (hasSeen lastLog l); [apply IH|].
    rewrite (IH l vlog2).
    destruct (deliver_missing l vlog1) as [l1 o1]. simpl. reflexivity.
Qed.

Lemma hasSeen_trans a b c : hasSeen a b = true -> hasSeen b c = true -> hasSeen a c = true.
Proof.
  intros Hab Hbc.
  destruct (hasSeen a c) eqn:Hac; [reflexivity|].
  apply hasSeen_false in Hac. apply hasSeen_true in Hab. apply hasSeen_true in Hbc.
  unfold key_le, log_lt, log_key, key_lt in *.
  destruct Hab as [Hab|Hab]; destruct Hbc as [Hbc|Hbc];
    try (injection Hab; intros); try (injection Hbc; intros); lia.
Qed.

Lemma hasSeen_refl l : hasSeen l l = true.
Proof. apply hasSeen_true. right. reflexivity. Qed.

Lemma not_seen_seen a b : hasSeen a b = false -> hasSeen b a = true.
Proof.
  intros H. apply hasSeen_false in H. apply hasSeen_true.
  left. exact H.
Qed.

Lemma deliver_missing_bound (vlog : list Log) : forall lastLog,
  hasSeen (fst (deliver_missing lastLog vlog)) lastLog = true
  /\ Forall (fun l => hasSeen (fst (deliver_missing lastLog vlog)) l = true) vlog.
Proof.
  induction vlog as [|l vlog IH]; intros lastLog; simpl.
  - split; [apply hasSeen_refl|constructor].
  - destruct (hasSeen lastLog l) eqn:Hseen.
    + destruct (IH lastLog) as [Hlast Hall]. split; [exact Hlast|].
      constructor; [|exact Hall]. eapply hasSeen_trans; eassumption.
    + destruct (IH l) as [Hl Hall].
      destruct (deliver_missing l vlog) as [l' o]. simpl in *.
      split; [|constructor; assumption].
      eapply hasSeen_trans; [exact Hl|]. apply not_seen_seen, Hseen.
Qed.

Lemma deliver_missing_all_seen (vlog : list Log) : forall lastLog,
  Forall (fun l => hasSeen lastLog l = true) vlog ->
  deliver_missing lastLog vlog = (lastLog, []).
Proof.
  induction vlog as [|l vlog IH]; intros lastLog Hall; simpl; [reflexivity|].
  apply Forall_cons in Hall as [Hl Hall]. rewrite Hl. apply IH, Hall.
Qed.

(** X2.  The loop over a backfill reply ([for _, l := range vlog]) can be
    cut anywhere: handling [vlog1 ++ vlog2] is handling [vlog1], then
    [vlog2] from the cursor reached.  The cursor it ends with has seen the
    cursor it started from and every log of the reply, so handling the same
    reply again, or any part of it, sends nothing and leaves the cursor
    where it is. *)
Theorem backfill_reply_composes_and_is_idempotent
    (lastLog : Log) (vlog1 vlog2 : list Log) :
  deliver_missing lastLog (vlog1 ++ vlog2)
  = (fst (deliver_missing (fst (deliver_missing lastLog vlog1)) vlog2),
     snd (deliver_missing lastLog vlog1)
     ++ snd (deliver_missing (fst (deliver_missing lastLog vlog1)) vlog2))
  /\ hasSeen (fst (deliver_missing lastLog (vlog1 ++ vlog2))) lastLog = true
  /\ deliver_missing (fst (deliver_missing lastLog (vlog1 ++ vlog2))) (vlog1 ++ vlog2)
     = (fst (deliver_missing lastLog (vlog1 ++ vlog2)), [])
  /\ deliver_missing (fst (deliver_missing lastLog (vlog1 ++ vlog2))) vlog2
     = (fst (deliver_missing lastLog (vlog1 ++ vlog2)), []).
Proof.
  split; [apply deliver_missing_app|].
  destruct (deliver_missing_bound (vlog1 ++ vlog2) lastLog) as [Hlast Hall].
  split; [exact Hlast|]. split; apply deliver_missing_all_seen; [exact Hall|].
  apply Forall_app in Hall. tauto.
Qed.

(** ** Where deliveries come from *)

Section Sources.
Context {St E R Q : Type}.
Context (step : St -> event E R -> option (St * list (action E Q))).
Context (Inv : St -> Prop) (src : event E R -> list E).

Hypothesis step_src : forall st ev st' acts,
  Inv st -> step st ev = Some (st', acts) ->
  Inv st' /\ forall d, In d (delivered acts) -> In d (src ev).

Lemma run_src evs : forall st st' acts,
  Inv st -> run step st evs = Some (st', acts) ->
  forall d, In d (delivered acts) -> In d (flat_map src evs).
Proof.
  induction evs as [|ev evs IH]; intros st st' acts Hinv Hrun d Hd; simpl in Hrun.
  - injection Hrun as <- <-. destruct Hd.
  - destruct (step st ev) as [[st1 acts1]|] eqn:Hstep; [|discriminate].
    destruct (run step st1 evs) as [[st2 acts2]|] eqn:Hrun'; [|discriminate].
    injection Hrun as <- <-.
    destruct (step_src _ _ _ _ Hinv Hstep) as [Hinv1 Hsrc].
    rewrite delivered_app in Hd. simpl. apply in_app_iff.
    apply in_app_iff in Hd as [Hd|Hd]; [left; apply Hsrc, Hd|right].
    eapply IH; eassumption.
Qed.
End Sources.

Lemma deliver_missing_from_reply (vlog : list Log) : forall lastLog d,
  In d (snd (deliver_missing lastLog vlog)) -> In d vlog.
Proof.
  induction vlog as [|l vlog IH]; intros lastLog d; simpl; [tauto|].
  destruct (hasSeen lastLog l).
  - intros Hd. right. eapply IH, Hd.
  - specialize (IH l d). destruct (deliver_missing l vlog) as [l' o]. simpl in *.
    intros [Hd|Hd]; [left; exact Hd|right; apply IH, Hd].
Qed.

Lemma log_step_src st ev st' acts :
  log_has_cursor st -> log_step st ev = Some (st', acts) ->
  log_has_cursor st' /\ forall d, In d (delivered acts) -> In d (log_replied ev).
Proof.
  destruct st as [[lastLog|] query|lastLog query start end_|];
    destruct ev as [commingLog| |[vlog|err]]; simpl; intros Hc Hstep;
    try discriminate; try destruct Hc.
  - destruct (hasSeen lastLog commingLog).
    + injection Hstep as <- <-. simpl. tauto.
    + injection Hstep as Hstep. unfold log_loop in Hstep.
      destruct (BlockNumber lastLog <=? BlockNumber commingLog);
        injection Hstep as <- <-; simpl; tauto.
  - injection Hstep as <- <-. simpl. tauto.
  - pose proof (deliver_missing_from_reply vlog lastLog) as Hfrom.
    destruct (deliver_missing lastLog vlog) as [last' out]. simpl in Hfrom.
    unfold log_loop in Hstep.
    destruct (wrap64 (end_ + 1) <=? end_); injection Hstep as <- <-;
      (split; [exact I|]); intros d; rewrite delivered_app, delivered_map_Deliver;
      simpl; rewrite app_nil_r; apply Hfrom.
  - destruct (is_cancel err).
    + injection Hstep as <- <-. simpl. tauto.
    + unfold log_loop in Hstep.
      destruct (start <=? end_); injection Hstep as <- <-; simpl; tauto.
Qed.

(** X3.  In a log subscription only the very first raw item goes straight
    to the consumer.  Every log sent after it was returned by a successful
    [FilterLogs] call of the gap detector: items pushed by the live session
    only trigger such calls. *)
Theorem logs_after_first_come_from_queries
    (q : FilterQuery) (e : Log) (evs : list log_event)
    (st : log_state) (acts : list log_action)
    (Hrun : run log_step (LSelect None q) (Recv e :: evs) = Some (st, acts)) :
  exists rest,
    delivered acts = e :: rest
    /\ forall d, In d rest -> In d (flat_map log_replied evs).
Proof.
  simpl in Hrun.
  destruct (run log_step (LSelect (Some e) q) evs) as [[st1 acts1]|] eqn:Hrun1;
    [|discriminate].
  injection Hrun as <- <-. exists (delivered acts1). split; [reflexivity|].
  eapply (run_src log_step log_has_cursor log_replied log_step_src);
    [|exact Hrun1]. exact I.
Qed.

Lemma logs_after_first_come_from_queries_witness :
  exists rest,
    delivered [Deliver logA; Call (set_FromBlock query0 1); Deliver logB] = logA :: rest
    /\ forall d, In d rest ->
         In d (flat_map log_replied [Recv logC; Reply (Ok [logB])]).
Proof.
  apply (logs_after_first_come_from_queries query0 logA
           [Recv logC; Reply (Ok [logB])]
           (LSelect (Some logB) (set_FromBlock query0 1))).
  reflexivity.
Defined.

(** ** Reconnecting *)

Lemma opens_app a b : opens (a ++ b) = (opens a + opens b)%nat.
Proof. induction a as [|[| |d] a IH]; simpl; rewrite ?IH; reflexivity. Qed.

Lemma unsubscribes_app a b : unsubscribes (a ++ b) = (unsubscribes a + unsubscribes b)%nat.
Proof. induction a as [|[| |d] a IH]; simpl; rewrite ?IH; reflexivity. Qed.

Lemma sup_sleeps_app a b : sup_sleeps (a ++ b) = sup_sleeps a ++ sup_sleeps b.
Proof. induction a as [|[| |d] a IH]; simpl; rewrite ?IH; reflexivity. Qed.

Lemma head_sup_step_log st ev r :
  head_sup_step st ev = Some r -> log_sup_step st ev = Some r.
Proof.
  destruct st; destruct ev as [[[]|err]|err|]; simpl; intros H;
    try discriminate; exact H.
Qed.

Lemma head_sup_run_log evs : forall st r,
  run head_sup_step st evs = Some r -> run log_sup_step st evs = Some r.
Proof.
  induction evs as [|ev evs IH]; intros st r; simpl; [tauto|].
  destruct (head_sup_step st ev) as [[st1 acts1]|] eqn:Hstep; [|discriminate].
  rewrite (head_sup_step_log _ _ _ Hstep).
  destruct (run head_sup_step st1 evs) as [[st2 acts2]|] eqn:Hrun; [|discriminate].
  rewrite (IH _ _ Hrun). tauto.
Qed.

Lemma log_sup_counts evs : forall st st' acts,
  run log_sup_step st evs = Some (st', acts) ->
  opens acts = (open_failures evs + session_errors evs)%nat
  /\ unsubscribes acts = session_errors evs
  /\ sup_sleeps acts = repeat reconnectInterval (opens acts).
Proof.
  induction evs as [|ev evs IH]; intros st st' acts Hrun; simpl in Hrun.
  - injection Hrun as <- <-. simpl. auto.
  - destruct (log_sup_step st ev) as [[st1 acts1]|] eqn:Hstep; [|discriminate].
    destruct (run log_sup_step st1 evs) as [[st2 acts2]|] eqn:Hrun'; [|discriminate].
    injection Hrun as <- <-.
    destruct (IH _ _ _ Hrun') as (Ho & Hu & Hs).
    rewrite opens_app, unsubscribes_app, sup_sleeps_app, Ho, Hu, Hs.
    destruct st; destruct ev as [[[]|err]|err|]; simpl in Hstep; try discriminate;
      try (destruct (is_cancel err) eqn:Hc); injection Hstep as <- <-; simpl;
      rewrite ?Hc; repeat split; try reflexivity; try lia.
    all: rewrite Ho; reflexivity.
Qed.

(** X4.  Both resubscription goroutines reopen the session once per
    failure and never otherwise: along any run, the number of [fn()] calls
    made after the first equals the number of failed opens that were not
    cancellations plus the number of session losses; there are as many
    sleeps, each of [reconnectInterval], and a lost session is unsubscribed
    once. *)
Theorem one_reopen_per_failure
    (evs hevs : list sup_event) (st hst : sup_state) (acts hacts : list sup_action)
    (Hlog : run log_sup_step SOpening evs = Some (st, acts))
    (Hhead : run head_sup_step SOpening hevs = Some (hst, hacts)) :
  (opens acts = (open_failures evs + session_errors evs)%nat
   /\ unsubscribes acts = session_errors evs
   /\ sup_sleeps acts = repeat reconnectInterval (opens acts))
  /\
  (opens hacts = (open_failures hevs + session_errors hevs)%nat
   /\ unsubscribes hacts = session_errors hevs
   /\ sup_sleeps hacts = repeat reconnectInterval (opens hacts)).
Proof.
  split.
  - eapply log_sup_counts, Hlog.
  - eapply log_sup_counts, head_sup_run_log, Hhead.
Qed.

Lemma one_reopen_per_failure_witness :
  (opens [SupSleep reconnectInterval; Open; Unsubscribe; SupSleep reconnectInterval; Open]
   = 2%nat
   /\ unsubscribes [SupSleep reconnectInterval; Open; Unsubscribe;
                    SupSleep reconnectInterval; Open] = 1%nat
   /\ sup_sleeps [SupSleep reconnectInterval; Open; Unsubscribe;
                  SupSleep reconnectInterval; Open]
      = repeat reconnectInterval 2)
  /\
  (opens [Unsubscribe; SupSleep reconnectInterval; Open] = 1%nat
   /\ unsubscribes [Unsubscribe; SupSleep reconnectInterval; Open] = 1%nat
   /\ sup_sleeps [Unsubscribe; SupSleep reconnectInterval; Open]
      = repeat reconnectInterval 1).
Proof.
  apply (one_reopen_per_failure
           [Opened (Err NotFound); Opened (Ok tt); SessionErr (OtherErr 1);
            Opened (Ok tt); SupCtxDone]
           [Opened (Ok tt); SessionErr (OtherErr 1); Opened (Err Canceled)]
           SStopped SStopped
           [SupSleep reconnectInterval; Open; Unsubscribe; SupSleep reconnectInterval; Open]
           [Unsubscribe; SupSleep reconnectInterval; Open]).
  - reflexivity.
  - reflexivity.
Defined.

(** ** The end of a gap-closing pass *)

Lemma log_last_block_stays (replies : list (outcome (list Log))) :
  forall lastLog query start st acts,
  start <= uint64_max ->
  Forall not_cancelled replies ->
  run log_step (LQuery lastLog query start uint64_max) (map Reply replies)
  = Some (st, acts) ->
  exists lastLog' query' start', st = LQuery lastLog' query' start' uint64_max.
Proof.
  induction replies as [|r replies IH]; intros lastLog query start st acts Hle Hall Hrun;
    cbn [run map] in Hrun.
  - injection Hrun as <- _. eauto.
  - apply Forall_cons in Hall as [Hr Hall].
    destruct (log_step (LQuery lastLog query start uint64_max) (Reply r))
      as [[st1 acts1]|] eqn:Hstep; [|discriminate].
    destruct (run log_step st1 (map Reply replies)) as [[st2 acts2]|] eqn:Hrun';
      [|discriminate].
    injection Hrun as <- _. simpl in Hstep.
    destruct r as [vlog|err].
    + destruct (deliver_missing lastLog vlog) as [last' out].
      unfold log_loop in Hstep.
      change (wrap64 (uint64_max + 1)) with 0 in Hstep.
      change (0 <=? uint64_max) with true in Hstep.
      injection Hstep as <- _.
      eapply (IH last' _ 0); [|exact Hall|exact Hrun'].
      unfold uint64_max, two64. lia.
    + simpl in Hr. rewrite Hr in Hstep. unfold log_loop in Hstep.
      destruct (Z.leb_spec start uint64_max); [|lia].
      injection Hstep as <- _.
      eapply (IH lastLog _ start); [exact Hle|exact Hall|exact Hrun'].
Qed.

(** X5.  A gap-closing pass of the log detector for a triggering block
    below the largest uint64 is over after its first successful reply: the
    reply's new logs are sent and the detector is back at its [select].
    For the triggering block 2^64-1, [start = end + 1] wraps to 0: the
    detector asks again from block 0 and, whatever the node answers short
    of a cancellation, never leaves the loop. *)
Theorem gap_pass_ends_unless_last_block
    (lastLog : Log) (query : FilterQuery) (start end_ : Z) (vlog : list Log)
    (replies : list (outcome (list Log))) (st : log_state) (acts : list log_action)
    (Hend : 0 <= end_ < uint64_max)
    (Hstart : start <= uint64_max)
    (Hreplies : Forall not_cancelled replies)
    (Hrun : run log_step (LQuery lastLog query start uint64_max) (map Reply replies)
            = Some (st, acts)) :
  log_step (LQuery lastLog query start end_) (Reply (Ok vlog))
  = Some (LSelect (Some (fst (deliver_missing lastLog vlog))) query,
          map Deliver (snd (deliver_missing lastLog vlog)))
  /\ log_step (LQuery lastLog query start uint64_max) (Reply (Ok vlog))
     = Some (LQuery (fst (deliver_missing lastLog vlog)) (set_FromBlock query 0)
                    0 uint64_max,
             map Deliver (snd (deliver_missing lastLog vlog))
             ++ [Call (set_FromBlock query 0)])
  /\ exists lastLog' query' start', st = LQuery lastLog' query' start' uint64_max.
Proof.
  split; [|split].
  - simpl. destruct (deliver_missing lastLog vlog) as [last' out]. simpl.
    unfold log_loop.
    assert (Hw : wrap64 (end_ + 1) = end_ + 1).
    { unfold wrap64. apply Z.mod_small. unfold uint64_max in Hend. lia. }
    rewrite Hw. destruct (Z.leb_spec (end_ + 1) end_); [lia|].
    rewrite app_nil_r. reflexivity.
  - simpl. destruct (deliver_missing lastLog vlog) as [last' out]. reflexivity.
  - eapply log_last_block_stays; eassumption.
Qed.

Lemma gap_pass_ends_unless_last_block_witness :
  exists lastLog' query' start',
    LQuery logC (set_FromBlock query0 0) 0 uint64_max
    = LQuery lastLog' query' start' uint64_max.
Proof.
  refine (proj2 (proj2
    (gap_pass_ends_unless_last_block logA query0 1 3 [logB]
       [Ok [logB]; Err NotFound; Ok [logC]]
       (LQuery logC (set_FromBlock query0 0) 0 uint64_max)
       [Deliver logB; Call (set_FromBlock query0 0); Sleep reconnectInterval;
        Call (set_FromBlock query0 0); Deliver logC; Call (set_FromBlock query0 0)]
       _ _ _ _))).
  - unfold uint64_max, two64. lia.
  - unfold uint64_max, two64. lia.
  - repeat constructor.
  - reflexivity.
Defined.

(** ** Nonces per account *)

Lemma wrap64_idem_succ n k :
  wrap64 (wrap64 (n + 1) + Z.of_nat k) = wrap64 (n + Z.of_nat (S k)).
Proof.
  unfold wrap64. rewrite Zplus_mod_idemp_l. f_equal. lia.
Qed.

Lemma wrap64_small z : 0 <= z < two64 -> wrap64 z = z.
Proof. intros Hz. unfold wrap64. apply Z.mod_small. exact Hz. Qed.

Lemma wrap64_range z : 0 <= wrap64 z < two64.
Proof. unfold wrap64. apply Z.mod_pos_bound. unfold two64. lia. Qed.

Lemma nonces_consecutive (reqs : list (N * outcome Z)) :
  forall (nonceMap : gmap N Z) account n,
  nonceMap !! account = Some n -> 0 <= n < two64 ->
  returns_for account reqs (NonceManager.calls_seq nonceMap reqs).2
  = map (fun k => (wrap64 (n + Z.of_nat k), None)) (seq 0 (calls_for account reqs))
  /\ (NonceManager.calls_seq nonceMap reqs).1 !! account
     = Some (wrap64 (n + Z.of_nat (calls_for account reqs))).
Proof.
  induction reqs as [|[account' remote] reqs IH]; intros nonceMap account n Hn Hrange.
  - simpl. rewrite Z.add_0_r, (wrap64_small n Hrange). auto.
  - simpl. destruct (N.eqb_spec account' account) as [->|Hne].
    + rewrite (NonceFacts.cached nonceMap account n remote Hn).
      destruct (IH (<[account := wrap64 (n + 1)]> nonceMap) account (wrap64 (n + 1)))
        as [Hrets Hmap]; [apply lookup_insert_eq|apply wrap64_range|].
      destruct (NonceManager.calls_seq (<[account := wrap64 (n + 1)]> nonceMap) reqs)
        as [m'' rets]. simpl in *.
      rewrite Hrets, Hmap. split.
      * change (Z.of_nat 0) with 0. rewrite Z.add_0_r, (wrap64_small n Hrange).
        f_equal. rewrite <- seq_shift, map_map. apply map_ext.
        intros k. rewrite wrap64_idem_succ. reflexivity.
      * rewrite wrap64_idem_succ. reflexivity.
    + pose proof (NonceFacts.other_account nonceMap account account' remote) as Ho.
      destruct (NonceManager.PendingNonceAt nonceMap account' remote)
        as [[m' asked] ret]. simpl in Ho.
      destruct (IH m' account n) as [Hrets Hmap];
        [rewrite Ho; [exact Hn|congruence]|exact Hrange|].
      destruct (NonceManager.calls_seq m' reqs) as [m'' rets]. simpl in *.
      auto.
Qed.

Lemma wrap_seq (c : nat) : forall n,
  0 <= n -> n + Z.of_nat c <= two64 ->
  map (fun k => wrap64 (n + Z.of_nat k)) (seq 0 c) = seqZ n (Z.of_nat c).
Proof.
  induction c as [|c IH]; intros n Hpos Hbelow; [reflexivity|].
  rewrite (seqZ_cons n) by lia. cbn [seq map].
  change (Z.of_nat 0) with 0. rewrite Z.add_0_r, (wrap64_small n) by lia.
  f_equal. rewrite <- seq_shift, map_map.
  replace (Z.pred (Z.of_nat (S c))) with (Z.of_nat c) by lia.
  rewrite <- (IH (Z.succ n)) by lia.
  apply map_ext. intros k. f_equal. lia.
Qed.

(** X6.  Once an account has a cached nonce [n], any sequence of
    [PendingNonceAt] calls, for this and other accounts in any order and
    whatever the remote client would answer, hands this account the nonces
    [n], [n+1], [n+2], ... (modulo 2^64) without error, and leaves [n] plus
    the number of its calls in the cache: below the wrap no nonce is
    skipped and none is handed out twice; the remote client's view is never
    consulted again. *)
Theorem nonces_are_consecutive_per_account
    (nonceMap : gmap N Z) (account : N) (n : Z) (reqs : list (N * outcome Z))
    (Hcached : nonceMap !! account = Some n)
    (Hrange : 0 <= n < two64) :
  returns_for account reqs (NonceManager.calls_seq nonceMap reqs).2
  = map (fun k => (wrap64 (n + Z.of_nat k), None)) (seq 0 (calls_for account reqs))
  /\ (NonceManager.calls_seq nonceMap reqs).1 !! account
     = Some (wrap64 (n + Z.of_nat (calls_for account reqs)))
  /\ (n + Z.of_nat (calls_for account reqs) <= two64 ->
      map fst (returns_for account reqs (NonceManager.calls_seq nonceMap reqs).2)
      = seqZ n (Z.of_nat (calls_for account reqs))).
Proof.
  destruct (nonces_consecutive reqs nonceMap account n Hcached Hrange) as [Hrets Hmap].
  split; [exact Hrets|]. split; [exact Hmap|].
  intros Hbelow. rewrite Hrets, map_map. simpl.
  apply wrap_seq; [lia|assumption].
Qed.

Lemma nonces_are_consecutive_per_account_witness :
  map fst (returns_for 1%N [(1%N, Err NotFound); (2%N, Ok 40); (1%N, Ok 0)]
             (NonceManager.calls_seq (<[1%N := 8]> NonceManager.NewNonceManager)
                [(1%N, Err NotFound); (2%N, Ok 40); (1%N, Ok 0)]).2)
  = seqZ 8 (Z.of_nat (calls_for 1%N [(1%N, Err NotFound); (2%N, Ok 40); (1%N, Ok 0)])).
Proof.
  refine (proj2 (proj2
    (nonces_are_consecutive_per_account (<[1%N := 8]> NonceManager.NewNonceManager)
       1%N 8 [(1%N, Err NotFound); (2%N, Ok 40); (1%N, Ok 0)] _ _)) _).
  - reflexivity.
  - unfold two64. lia.
  - unfold two64. simpl. lia.
Defined.

(** ** Building a transaction *)

Module ClientFacts.
Import Client.

Lemma pending_nonce_cases (nonceMap : gmap N Z) account remote :
  (exists err,
     NonceManager.PendingNonceAt nonceMap account remote
     = (nonceMap, [account], (0, Some err))
     /\ nonceMap !! account = None /\ remote = Err err)
  \/ (exists nonce asked,
        NonceManager.PendingNonceAt nonceMap account remote
        = (<[account := wrap64 (nonce + 1)]> nonceMap, asked, (nonce, None))
        /\ match nonceMap !! account with
           | Some n => nonce = n /\ asked = []
           | None => remote = Ok nonce /\ asked = [account]
           end).
Proof.
  unfold NonceManager.PendingNonceAt.
  destruct (nonceMap !! account) as [n|] eqn:Hl.
  - right. exists n, []. auto.
  - destruct remote as [v|err].
    + right. exists v, [account]. auto.
    + left. exists err. auto.
Qed.

Lemma new_transaction_cases (nonceMap : gmap N Z) msg node m' calls r :
  NewTransaction nonceMap msg node = (m', calls, r) ->
  match r with
  | Err _ => m' = nonceMap
  | Ok tx =>
      m' = <[cFrom msg := wrap64 (tx_nonce tx + 1)]> nonceMap
      /\ nonce_taken nonceMap node (cFrom msg) (tx_nonce tx)
      /\ tx_to tx = match cTo msg with Some to => to | None => zero_address end
  end.
Proof.
  unfold NewTransaction, nonce_taken. simpl.
  destruct (if cGas msg =? 0 then EstimateGas node else Ok (cGas msg)) as [gas|err];
    [|intros H; injection H as <- _ <-; reflexivity].
  match goal with
  | |- context [if ?b then match SuggestGasPrice node with _ => _ end else _] =>
      destruct (if b then match SuggestGasPrice node with
                          | Ok price => Ok (Some price)
                          | Err err => Err err
                          end
                else Ok (cGasPrice msg)) as [price|err]
  end; [|intros H; injection H as <- _ <-; reflexivity].
  destruct (pending_nonce_cases nonceMap (cFrom msg) (RemotePendingNonce node))
    as [(err & -> & Hnone & Hrem)|(nonce & asked & -> & Hcase)].
  - intros H; injection H as <- _ <-. reflexivity.
  - intros H; injection H as <- _ <-. simpl. split; [reflexivity|].
    split; [|reflexivity]. destruct (nonceMap !! cFrom msg); tauto.
Qed.

Lemma last_two {A : Type} (l : list A) a b : last (l ++ [a; b]) = Some b.
Proof.
  replace (l ++ [a; b]) with ((l ++ [a]) ++ [b]) by (rewrite <- app_assoc; reflexivity).
  apply last_snoc.
Qed.

End ClientFacts.

(** X7.  [NewTransaction] takes the nonce last: when it returns an error
    (gas estimate, gas price or nonce query failed) the nonce cache is as
    before, so no nonce is lost; when it returns a transaction, the
    transaction carries the cached nonce of the sender (the remote pending
    nonce if there was none), the cache holds that nonce plus one (modulo
    2^64), a nil destination has become the zero address, and a non-zero
    gas limit given in the message is used as it is. *)
Theorem new_transaction_takes_nonce_last
    (nonceMap m' : gmap N Z) (msg : Client.EthCallMsg) (node : Client.Node)
    (calls : list Client.rpc) (r : outcome Client.Transaction)
    (Hcall : Client.NewTransaction nonceMap msg node = (m', calls, r)) :
  match r with
  | Err _ => m' = nonceMap
  | Ok tx =>
      m' = <[Client.cFrom msg := wrap64 (Client.tx_nonce tx + 1)]> nonceMap
      /\ match nonceMap !! Client.cFrom msg with
         | Some n => Client.tx_nonce tx = n
         | None => Client.RemotePendingNonce node = Ok (Client.tx_nonce tx)
         end
      /\ Client.tx_to tx = match Client.cTo msg with
                           | Some to => to
                           | None => Client.zero_address
                           end
      /\ (Client.cGas msg <> 0 -> Client.tx_gasLimit tx = Client.cGas msg)
      /\ (Client.cGas msg = 0 -> Client.EstimateGas node = Ok (Client.tx_gasLimit tx))
      /\ Client.tx_amount tx = Client.cValue msg
      /\ Client.tx_data tx = Client.cData msg
  end.
Proof.
  pose proof (ClientFacts.new_transaction_cases _ _ _ _ _ _ Hcall) as Hcases.
  destruct r as [tx|err]; [|exact Hcases].
  destruct Hcases as (Hm & Hn & _). split; [exact Hm|]. split; [exact Hn|].
  unfold Client.NewTransaction in Hcall. simpl in Hcall.
  destruct (Z.eqb_spec (Client.cGas msg) 0) as [Hz|Hnz].
  - destruct (Client.EstimateGas node) as [gas|err]; [|discriminate].
    match type of Hcall with
    | context [if ?b then match Client.SuggestGasPrice node with _ => _ end else _] =>
        destruct (if b then match Client.SuggestGasPrice node with
                            | Ok price => Ok (Some price)
                            | Err err => Err err
                            end
                  else Ok (Client.cGasPrice msg)) as [price|err]
    end; [|discriminate].
    destruct (NonceManager.PendingNonceAt nonceMap (Client.cFrom msg)
                (Client.RemotePendingNonce node)) as [[m1 asked] [nonce [err|]]];
      [discriminate|].
    injection Hcall as _ _ <-. simpl. repeat split; congruence.
  - match type of Hcall with
    | context [if ?b then match Client.SuggestGasPrice node with _ => _ end else _] =>
        destruct (if b then match Client.SuggestGasPrice node with
                            | Ok price => Ok (Some price)
                            | Err err => Err err
                            end
                  else Ok (Client.cGasPrice msg)) as [price|err]
    end; [|discriminate].
    destruct (NonceManager.PendingNonceAt nonceMap (Client.cFrom msg)
                (Client.RemotePendingNonce node)) as [[m1 asked] [nonce [err|]]];
      [discriminate|].
    injection Hcall as _ _ <-. simpl. repeat split; congruence.
Qed.

Lemma new_transaction_takes_nonce_last_witness :
  <[5%N := 8]> (∅ : gmap N Z) = <[5%N := wrap64 (7 + 1)]> (∅ : gmap N Z)
  /\ Client.RemotePendingNonce
       (Client.mkNode (Ok []) (Ok 21000) (Ok 1) (Ok 7) (Ok 1) None None None) = Ok 7
  /\ 0%N = Client.zero_address
  /\ (0 <> 0 -> 21000 = 0)
  /\ (0 = 0 -> Ok 21000 = Ok 21000)
  /\ Some 3 = Some 3
  /\ [] = ([] : list Z).
Proof.
  exact (new_transaction_takes_nonce_last ∅ (<[5%N := 8]> ∅)
           (Client.mkCallMsg 5%N None 0 None (Some 3) [] [])
           (Client.mkNode (Ok []) (Ok 21000) (Ok 1) (Ok 7) (Ok 1) None None None)
           [Client.REstimateGas (Client.mkCallMsg 5%N (Some 0%N) 0 None (Some 3) [] []);
            Client.RSuggestGasPrice; Client.RPendingNonceAt 5%N]
           (Ok (Client.mkTx 7 0%N (Some 3) 21000 (Some 1) []))
           eq_refl).
Defined.

(** ** Sending a message *)

Section SendMsgFacts.
Variable PubkeyToAddress : N -> N.
Import Client.

Lemma send_msg_cases (nonceMap m' : gmap N Z) msg node calls e :
  SendMsg PubkeyToAddress nonceMap msg node = (m', calls, e) ->
  match PrivateKey msg with
  | None => m' = nonceMap /\ calls = [] /\ e = Returns (None, Some ErrMessagePrivateKeyNil)
  | Some key =>
      (exists err, e = Returns (None, Some (Errorf NewTransaction_err err))
                   /\ m' = nonceMap)
      \/ (exists tx,
            m' = <[PubkeyToAddress key := wrap64 (tx_nonce tx + 1)]> nonceMap
            /\ nonce_taken nonceMap node (PubkeyToAddress key) (tx_nonce tx)
            /\ tx_to tx = match To msg with Some to => to | None => zero_address end
            /\ ((exists err, e = Returns (None, Some (Errorf Get_Chain_ID_err err))
                             /\ ChainID node = Err err)
                \/ (exists err, e = Returns (None, Some (Errorf SignTx_err err))
                                /\ SignTx node = Some err)
                \/ (exists chainID,
                      last calls = Some (RSendTransaction (mkSigned tx chainID key))
                      /\ ((exists err,
                             e = Returns (None, Some (Errorf SendTransaction_err err))
                             /\ SendTransaction node = Some err)
                          \/ (e = Returns (Some (mkSigned tx chainID key), None)
                              /\ SendTransaction node = None /\ To msg <> None)
                          \/ (e = Panics
                              /\ SendTransaction node = None /\ To msg = None)))))
  end.
Proof.
  unfold SendMsg. destruct (PrivateKey msg) as [key|].
  2: { intros H. injection H as <- <- <-. auto. }
  destruct (NewTransaction nonceMap (ethMesg (PubkeyToAddress key) msg) node)
    as [[m1 calls1] r] eqn:Hnew.
  pose proof (ClientFacts.new_transaction_cases _ _ _ _ _ _ Hnew) as Hfacts.
  destruct r as [tx|err].
  2: { intros H. injection H as <- <- <-. left. exists err. auto. }
  destruct Hfacts as (Hm & Hn & Hto). simpl in Hm, Hn, Hto.
  intros H. right. exists tx. split; [|split; [exact Hn|split; [exact Hto|]]].
  { destruct (ChainID node); [destruct (SignTx node);
      [|destruct (SendTransaction node); [|destruct (To msg)]]|];
      injection H as <- _ _; exact Hm. }
  destruct (ChainID node) as [chainID|err].
  2: { injection H as _ _ <-. left. eauto. }
  destruct (SignTx node) as [err|].
  { injection H as _ _ <-. right. left. eauto. }
  right. right. exists chainID.
  destruct (SendTransaction node) as [err|]; [|destruct (To msg) as [to|]];
    injection H as _ <- <-; (split; [apply ClientFacts.last_two|]).
  - left. eauto.
  - right. left. repeat split. discriminate.
  - right. right. auto.
Qed.

End SendMsgFacts.


(** X8.  How [SendMsg] ends.  Without a private key it returns
    [ErrMessagePrivateKeyNil], asks the node nothing and takes no nonce.
    When building the transaction fails, no nonce is taken.  When a later
    step fails (chain id, signature, broadcast), the nonce has been taken
    all the same: the cache is one past it although nothing was sent
    successfully.  It returns a transaction only for a message with a
    destination, and then the broadcast of that transaction was its last
    request.  With a nil destination the transaction is addressed to the
    zero address, is broadcast, and the call then panics instead of
    returning. *)
Theorem send_msg_outcomes
    (PubkeyToAddress : N -> N) (nonceMap m' : gmap N Z)
    (msg : Client.Message) (node : Client.Node)
    (calls : list Client.rpc)
    (e : Client.ending (option Client.SignedTx * option Client.client_error))
    (Hcall : Client.SendMsg PubkeyToAddress nonceMap msg node = (m', calls, e)) :
  (Client.PrivateKey msg = None ->
     m' = nonceMap /\ calls = []
     /\ e = Client.Returns (None, Some Client.ErrMessagePrivateKeyNil))
  /\ (forall err,
        e = Client.Returns (None, Some (Client.Errorf Client.NewTransaction_err err)) ->
        m' = nonceMap)
  /\ (forall p err,
        e = Client.Returns (None, Some (Client.Errorf p err)) ->
        p <> Client.NewTransaction_err ->
        exists key nonce,
          Client.PrivateKey msg = Some key
          /\ Client.nonce_taken nonceMap node (PubkeyToAddress key) nonce
          /\ m' = <[PubkeyToAddress key := wrap64 (nonce + 1)]> nonceMap)
  /\ (forall stx,
        e = Client.Returns (Some stx, None) ->
        Client.PrivateKey msg = Some (Client.s_key stx)
        /\ Client.To msg = Some (Client.tx_to (Client.s_tx stx))
        /\ last calls = Some (Client.RSendTransaction stx)
        /\ Client.nonce_taken nonceMap node (PubkeyToAddress (Client.s_key stx))
             (Client.tx_nonce (Client.s_tx stx))
        /\ m' = <[PubkeyToAddress (Client.s_key stx)
                  := wrap64 (Client.tx_nonce (Client.s_tx stx) + 1)]> nonceMap)
  /\ (e = Client.Panics ->
        Client.To msg = None /\ Client.SendTransaction node = None
        /\ exists stx,
             last calls = Some (Client.RSendTransaction stx)
             /\ Client.tx_to (Client.s_tx stx) = Client.zero_address)
  /\ (Client.To msg = None -> forall stx, e <> Client.Returns (Some stx, None)).
Proof.
  apply send_msg_cases in Hcall.
  destruct (Client.PrivateKey msg) as [key|].
  2: { destruct Hcall as (-> & -> & ->). repeat split; intros; discriminate. }
  destruct Hcall as [(err0 & -> & ->)|(tx & -> & Hn & Hto & Hrest)].
  { repeat split; intros; try discriminate; try reflexivity.
    match goal with H : Client.Returns _ = Client.Returns _ |- _ =>
      injection H as <- <- end.
    congruence. }
  destruct Hrest as [(err0 & -> & _)|[(err0 & -> & _)|(chainID & Hlast & Hrest)]].
  1, 2: repeat split; intros; try discriminate;
        match goal with H : Client.Returns _ = Client.Returns _ |- _ =>
          injection H as <- <- end; try congruence; exists key, (Client.tx_nonce tx); auto.
  destruct Hrest as [(err0 & -> & _)|[(-> & Hsend & Hsome)|(-> & Hsend & Hnone)]].
  - repeat split; intros; try discriminate;
      match goal with H : Client.Returns _ = Client.Returns _ |- _ =>
        injection H as <- <- end; try congruence; exists key, (Client.tx_nonce tx); auto.
  - destruct (Client.To msg) as [to|]; [|congruence].
    repeat split; intros; try discriminate;
      try match goal with H : Client.Returns _ = Client.Returns _ |- _ =>
        injection H as <- end; simpl; auto; congruence.
  - rewrite Hnone in Hto.
    repeat split; intros; try discriminate; auto.
    exists (Client.mkSigned tx chainID key). auto.
Qed.

Lemma send_msg_outcomes_witness :
  Client.To (Client.mkMessage 0%N (Some 9%N) None 21000 (Some 1) None [] []) = None
  /\ Client.SendTransaction
       (Client.mkNode (Ok []) (Ok 21000) (Ok 1) (Ok 7) (Ok 1) None None None) = None
  /\ exists stx,
       last [Client.RPendingNonceAt 10%N; Client.RChainID;
             Client.RSendTransaction
               (Client.mkSigned (Client.mkTx 7 0%N None 21000 (Some 1) []) 1 9%N)]
       = Some (Client.RSendTransaction stx)
       /\ Client.tx_to (Client.s_tx stx) = Client.zero_address.
Proof.
  refine (proj1 (proj2 (proj2 (proj2 (proj2
    (send_msg_outcomes N.succ ∅ (<[10%N := 8]> ∅)
       (Client.mkMessage 0%N (Some 9%N) None 21000 (Some 1) None [] [])
       (Client.mkNode (Ok []) (Ok 21000) (Ok 1) (Ok 7) (Ok 1) None None None)
       [Client.RPendingNonceAt 10%N; Client.RChainID;
        Client.RSendTransaction
          (Client.mkSigned (Client.mkTx 7 0%N None 21000 (Some 1) []) 1 9%N)]
       Client.Panics _))))) eq_refl).
  reflexivity.
Defined.

(** X9.  A nonce taken by a send that failed after the transaction was
    built is not given back: when [SendMsg] fails at the chain id, the
    signature or the broadcast, the next [SendMsg] with the same key that
    succeeds carries the following nonce, so the sender's transactions have
    a hole at the nonce of the failed one. *)
Theorem failed_send_leaves_nonce_gap
    (PubkeyToAddress : N -> N) (nonceMap m1 m2 : gmap N Z)
    (msg1 msg2 : Client.Message) (node1 node2 : Client.Node)
    (calls1 calls2 : list Client.rpc) (key : N) (n : Z)
    (p : Client.errorf_prefix) (err : error) (stx : Client.SignedTx)
    (Hkey1 : Client.PrivateKey msg1 = Some key)
    (Hkey2 : Client.PrivateKey msg2 = Some key)
    (Hcached : nonceMap !! PubkeyToAddress key = Some n)
    (Hfail : Client.SendMsg PubkeyToAddress nonceMap msg1 node1
             = (m1, calls1, Client.Returns (None, Some (Client.Errorf p err))))
    (Hlate : p <> Client.NewTransaction_err)
    (Hsent : Client.SendMsg PubkeyToAddress m1 msg2 node2
             = (m2, calls2, Client.Returns (Some stx, None))) :
  Client.tx_nonce (Client.s_tx stx) = wrap64 (n + 1)
  /\ m2 !! PubkeyToAddress key = Some (wrap64 (wrap64 (n + 1) + 1)).
Proof.
  apply send_msg_cases in Hfail. rewrite Hkey1 in Hfail.
  assert (Hm1 : m1 !! PubkeyToAddress key = Some (wrap64 (n + 1))).
  { destruct Hfail as [(e & He & _)|(tx & -> & Hn & _)].
    - injection He as -> _. congruence.
    - unfold Client.nonce_taken in Hn. rewrite Hcached in Hn. rewrite Hn.
      apply lookup_insert_eq. }
  apply send_msg_cases in Hsent. rewrite Hkey2 in Hsent.
  destruct Hsent as [(e & He & _)|(tx & -> & Hn & _ & Hrest)]; [discriminate|].
  unfold Client.nonce_taken in Hn. rewrite Hm1 in Hn.
  assert (Hstx : Client.s_tx stx = tx).
  { destruct Hrest as [(e & He & _)|[(e & He & _)|(c & _ & [(e & He & _)|[(He & _)|(He & _)]])]];
      try discriminate He. injection He as ->. reflexivity. }
  rewrite Hstx, Hn. split; [reflexivity|]. apply lookup_insert_eq.
Qed.

Lemma failed_send_leaves_nonce_gap_witness :
  Client.tx_nonce (Client.s_tx
    (Client.mkSigned (Client.mkTx 8 3%N None 21000 (Some 1) []) 1 9%N)) = wrap64 (7 + 1)
  /\ (<[10%N := 9]> (<[10%N := 8]> (<[10%N := 7]> (∅ : gmap N Z)))) !! N.succ 9%N
     = Some (wrap64 (wrap64 (7 + 1) + 1)).
Proof.
  apply (failed_send_leaves_nonce_gap N.succ
           (<[10%N := 7]> ∅) (<[10%N := 8]> (<[10%N := 7]> ∅))
           (<[10%N := 9]> (<[10%N := 8]> (<[10%N := 7]> ∅)))
           (Client.mkMessage 0%N (Some 9%N) (Some 3%N) 21000 (Some 1) None [] [])
           (Client.mkMessage 0%N (Some 9%N) (Some 3%N) 21000 (Some 1) None [] [])
           (Client.mkNode (Ok []) (Ok 21000) (Ok 1) (Ok 7) (Ok 1) None
              (Some (OtherErr 1)) None)
           (Client.mkNode (Ok []) (Ok 21000) (Ok 1) (Ok 7) (Ok 1) None None None)
           [Client.RChainID;
            Client.RSendTransaction
              (Client.mkSigned (Client.mkTx 7 3%N None 21000 (Some 1) []) 1 9%N)]
           [Client.RChainID;
            Client.RSendTransaction
              (Client.mkSigned (Client.mkTx 8 3%N None 21000 (Some 1) []) 1 9%N)]
           9%N 7 Client.SendTransaction_err (OtherErr 1)
           (Client.mkSigned (Client.mkTx 8 3%N None 21000 (Some 1) []) 1 9%N)).
  - reflexivity.
  - reflexivity.
  - reflexivity.
  - reflexivity.
  - discriminate.
  - reflexivity.
Defined.

(** X10.  [SafeSendMsg] starts with a dry run of the message against the
    latest state, made for the sender derived from the key (for [msg.From]
    when there is no key).  If the dry run fails, its error comes back as it
    is, nothing else is asked of the node and no nonce is taken; a
    transaction is broadcast only after a dry run that succeeded.  Without a
    private key a successful dry run is followed by
    [ErrMessagePrivateKeyNil]. *)
Theorem safe_send_needs_successful_dry_run
    (PubkeyToAddress : N -> N) (nonceMap m' : gmap N Z)
    (msg : Client.Message) (node : Client.Node)
    (calls : list Client.rpc)
    (e : Client.ending (option Client.SignedTx * option Client.client_error))
    (Hcall : Client.SafeSendMsg PubkeyToAddress nonceMap msg node = (m', calls, e)) :
  head calls
  = Some (Client.RCallContract
            (Client.ethMesg
               (match Client.PrivateKey msg with
                | Some key => PubkeyToAddress key
                | None => Client.From msg
                end) msg) None)
  /\ (forall err,
        Client.CallContract node = Err err ->
        m' = nonceMap /\ length calls = 1%nat
        /\ e = Client.Returns (None, Some (Client.Plain err)))
  /\ (forall stx,
        In (Client.RSendTransaction stx) calls ->
        exists data, Client.CallContract node = Ok data)
  /\ (Client.PrivateKey msg = None ->
      forall data, Client.CallContract node = Ok data ->
        m' = nonceMap /\ length calls = 1%nat
        /\ e = Client.Returns (None, Some Client.ErrMessagePrivateKeyNil)).
Proof.
  unfold Client.SafeSendMsg, Client.CallMsg in Hcall.
  destruct (Client.CallContract node) as [data|err].
  - destruct (Client.SendMsg PubkeyToAddress nonceMap msg node)
      as [[m1 calls1] e1] eqn:Hsend.
    injection Hcall as <- <- <-.
    split; [reflexivity|]. split; [intros; discriminate|].
    split; [eauto|].
    intros Hkey data' _. apply send_msg_cases in Hsend. rewrite Hkey in Hsend.
    destruct Hsend as (-> & -> & ->). auto.
  - injection Hcall as <- <- <-.
    split; [reflexivity|]. split.
    + intros err' Herr. injection Herr as <-. auto.
    + split; [|intros; discriminate].
      intros stx [Hin|[]]. discriminate.
Qed.

Lemma safe_send_needs_successful_dry_run_witness :
  (∅ : gmap N Z) = ∅
  /\ length [Client.RCallContract
               (Client.ethMesg (N.succ 9%N)
                  (Client.mkMessage 0%N (Some 9%N) (Some 3%N) 21000 (Some 1) None [] []))
               None] = 1%nat
  /\ Client.Returns (None, Some (Client.Plain (OtherErr 2)))
     = Client.Returns (None : option Client.SignedTx,
                       Some (Client.Plain (OtherErr 2))).
Proof.
  refine (proj1 (proj2
    (safe_send_needs_successful_dry_run N.succ ∅ ∅
       (Client.mkMessage 0%N (Some 9%N) (Some 3%N) 21000 (Some 1) None [] [])
       (Client.mkNode (Err (OtherErr 2)) (Ok 21000) (Ok 1) (Ok 7) (Ok 1) None None None)
       [Client.RCallContract
          (Client.ethMesg (N.succ 9%N)
             (Client.mkMessage 0%N (Some 9%N) (Some 3%N) 21000 (Some 1) None [] []))
          None]
       (Client.Returns (None, Some (Client.Plain (OtherErr 2)))) _))
    (OtherErr 2) eq_refl).
  reflexivity.
Defined.

(** ** Sending a batch *)





Lemma send_msg_success (PubkeyToAddress : N -> N) (nonceMap m' : gmap N Z)
    msg node calls tx key n :
  Client.SendMsg PubkeyToAddress nonceMap msg node
  = (m', calls, Client.Returns (tx, None)) ->
  Client.PrivateKey msg = Some key ->
  nonceMap !! PubkeyToAddress key = Some n ->
  exists stx, tx = Some stx /\ Client.tx_nonce (Client.s_tx stx) = n
              /\ m' !! PubkeyToAddress key = Some (wrap64 (n + 1)).
Proof.
  intros H Hkey Hn. apply send_msg_cases in H. rewrite Hkey in H.
  destruct H as [(e & He & _)|(t & -> & Hnonce & _ & Hrest)]; [discriminate|].
  unfold Client.nonce_taken in Hnonce. rewrite Hn in Hnonce.
  destruct Hrest as [(e & He & _)|[(e & He & _)|(c & _ & [(e & He & _)|[(He & _)|(He & _)]])]];
    try discriminate He. injection He as ->.
  eexists. split; [reflexivity|]. simpl. split; [exact Hnonce|].
  rewrite Hnonce. apply lookup_insert_eq.
Qed.

Lemma batch_nonces (PubkeyToAddress : N -> N) (key : N)
    (msgs : list (Client.Message * Client.Node)) :
  forall (nonceMap m' : gmap N Z) n calls txs errs,
  nonceMap !! PubkeyToAddress key = Some n -> 0 <= n < two64 ->
  Forall (fun mn => Client.PrivateKey mn.1 = Some key) msgs ->
  Client.BatchSendMsg PubkeyToAddress nonceMap msgs
  = (m', calls, (txs, errs, Client.Returns tt)) ->
  Forall (fun err => err = None) errs ->
  map (option_map (fun stx => Client.tx_nonce (Client.s_tx stx))) txs
  = map (fun k => Some (wrap64 (n + Z.of_nat k))) (seq 0 (length msgs))
  /\ m' !! PubkeyToAddress key = Some (wrap64 (n + Z.of_nat (length msgs))).
Proof.
  induction msgs as [|[msg node] msgs IH];
    intros nonceMap m' n calls txs errs Hn Hrange Hkeys Hb Herrs; simpl in Hb.
  - injection Hb as <- _ <- _. simpl.
    rewrite Z.add_0_r, (wrap64_small n Hrange). auto.
  - apply Forall_cons in Hkeys as [Hkey Hkeys]. simpl in Hkey.
    destruct (Client.SendMsg PubkeyToAddress nonceMap msg node) as [[m1 calls1] r] eqn:Hs.
    destruct r as [[tx err]|]; [|discriminate].
    destruct (Client.BatchSendMsg PubkeyToAddress m1 msgs)
      as [[m2 calls2] [[txs2 errs2] e2]] eqn:Hb2.
    injection Hb as <- _ <- <- ->.
    apply Forall_cons in Herrs as [-> Herrs].
    destruct (send_msg_success _ _ _ _ _ _ _ _ _ Hs Hkey Hn) as (stx & -> & Hnonce & Hm1).
    destruct (IH m1 m2 (wrap64 (n + 1)) calls2 txs2 errs2 Hm1 (wrap64_range _)
                Hkeys Hb2 Herrs) as [Htxs Hm2].
    cbn [map length seq option_map]. rewrite Htxs, Hm2, Hnonce.
    change (Z.of_nat 0) with 0. rewrite Z.add_0_r, (wrap64_small n Hrange).
    split.
    + f_equal. rewrite <- seq_shift, map_map. apply map_ext.
      intros k. rewrite wrap64_idem_succ. reflexivity.
    + rewrite wrap64_idem_succ. reflexivity.
Qed.

(** X12.  A batch of messages signed with one key, none of which fails,
    gets consecutive nonces in the order of the messages: starting from the
    sender's cached nonce [n], the k-th transaction carries [n + k] (no wrap
    being reached), and the cache ends at [n] plus the number of messages. *)
Theorem batch_nonces_consecutive
    (PubkeyToAddress : N -> N) (key : N)
    (msgs : list (Client.Message * Client.Node))
    (nonceMap m' : gmap N Z) (n : Z) (calls : list Client.rpc)
    (txs : list (option Client.SignedTx)) (errs : list (option Client.client_error))
    (Hcached : nonceMap !! PubkeyToAddress key = Some n)
    (Hrange : 0 <= n < two64)
    (Hbelow : n + Z.of_nat (length msgs) <= two64)
    (Hkeys : Forall (fun mn => Client.PrivateKey mn.1 = Some key) msgs)
    (Hbatch : Client.BatchSendMsg PubkeyToAddress nonceMap msgs
              = (m', calls, (txs, errs, Client.Returns tt)))
    (Hok : Forall (fun err => err = None) errs) :
  map (option_map (fun stx => Client.tx_nonce (Client.s_tx stx))) txs
  = map Some (seqZ n (Z.of_nat (length msgs)))
  /\ m' !! PubkeyToAddress key = Some (wrap64 (n + Z.of_nat (length msgs))).
Proof.
  destruct (batch_nonces _ _ _ _ _ _ _ _ _ Hcached Hrange Hkeys Hbatch Hok)
    as [Htxs Hm].
  split; [|exact Hm].
  rewrite Htxs, <- (wrap_seq (length msgs) n) by lia.
  rewrite map_map. reflexivity.
Qed.

Lemma batch_nonces_consecutive_witness :
  map (option_map (fun stx => Client.tx_nonce (Client.s_tx stx)))
      [Some (Client.mkSigned (Client.mkTx 7 3%N None 21000 (Some 1) []) 1 9%N);
       Some (Client.mkSigned (Client.mkTx 8 4%N None 21000 (Some 1) []) 1 9%N)]
  = map Some (seqZ 7 2)
  /\ (<[10%N := 9]> (<[10%N := 8]> (<[10%N := 7]> (∅ : gmap N Z)))) !! N.succ 9%N
     = Some (wrap64 (7 + 2)).
Proof.
  apply (batch_nonces_consecutive N.succ 9%N
           [(Client.mkMessage 0%N (Some 9%N) (Some 3%N) 21000 (Some 1) None [] [],
             Client.mkNode (Ok []) (Ok 21000) (Ok 1) (Ok 0) (Ok 1) None None None);
            (Client.mkMessage 0%N (Some 9%N) (Some 4%N) 21000 (Some 1) None [] [],
             Client.mkNode (Ok []) (Ok 21000) (Ok 1) (Ok 0) (Ok 1) None None None)]
           (<[10%N := 7]> ∅) (<[10%N := 9]> (<[10%N := 8]> (<[10%N := 7]> ∅))) 7
           [Client.RChainID;
            Client.RSendTransaction
              (Client.mkSigned (Client.mkTx 7 3%N None 21000 (Some 1) []) 1 9%N);
            Client.RChainID;
            Client.RSendTransaction
              (Client.mkSigned (Client.mkTx 8 4%N None 21000 (Some 1) []) 1 9%N)]
           [Some (Client.mkSigned (Client.mkTx 7 3%N None 21000 (Some 1) []) 1 9%N);
            Some (Client.mkSigned (Client.mkTx 8 4%N None 21000 (Some 1) []) 1 9%N)]
           [None; None]).
  - reflexivity.
  - unfold two64. lia.
  - unfold two64. simpl. lia.
  - repeat constructor.
  - reflexivity.
  - repeat constructor.
Defined.

(** ** Transaction options *)

(** X13.  [MessageToTransactOpts] refuses a message without private key
    before asking anything.  Otherwise it takes the sender's next nonce
    first, so a failure to get the chain id afterwards loses that nonce.
    The options it returns carry the nonce converted through [int64]
    (negative from 2^63 on) and the message's value, gas limit and gas price
    as they are, without estimate. *)
Theorem transact_opts_take_nonce_first
    (PubkeyToAddress : N -> N) (nonceMap m' : gmap N Z)
    (msg : Client.Message) (node : Client.Node) (calls : list Client.rpc)
    (r : option Client.TransactOpts) (err : option Client.client_error)
    (Hcall : Client.MessageToTransactOpts PubkeyToAddress nonceMap msg node
             = (m', calls, (r, err))) :
  (Client.PrivateKey msg = None ->
     m' = nonceMap /\ calls = [] /\ r = None
     /\ err = Some Client.ErrMessagePrivateKeyNil)
  /\ (r = None <-> err <> None)
  /\ (forall opts, r = Some opts ->
        exists key nonce,
          Client.PrivateKey msg = Some key
          /\ Client.nonce_taken nonceMap node (PubkeyToAddress key) nonce
          /\ m' = <[PubkeyToAddress key := wrap64 (nonce + 1)]> nonceMap
          /\ opts = Client.mkOpts (PubkeyToAddress key) (to_int64 nonce)
                      (Client.Value msg) (Client.Gas msg) (Client.GasPrice msg))
  /\ (forall key n e,
        Client.PrivateKey msg = Some key ->
        nonceMap !! PubkeyToAddress key = Some n ->
        Client.ChainID node = Err e ->
        r = None /\ err = Some (Client.Plain e)
        /\ m' = <[PubkeyToAddress key := wrap64 (n + 1)]> nonceMap)
  /\ (forall z, 2 ^ 63 <= z < two64 -> to_int64 z = z - two64).
Proof.
  unfold Client.MessageToTransactOpts in Hcall.
  split; [|split; [|split; [|split]]].
  - intros Hkey. rewrite Hkey in Hcall. injection Hcall as <- <- <- <-. auto.
  - destruct (Client.PrivateKey msg) as [key|].
    + destruct (NonceManager.PendingNonceAt nonceMap (PubkeyToAddress key)
                  (Client.RemotePendingNonce node)) as [[m1 asked] [nonce [e|]]].
      * injection Hcall as _ _ <- <-. split; congruence.
      * destruct (Client.ChainID node);
          [destruct (Client.NewKeyedTransactor node)|];
          injection Hcall as _ _ <- <-; split; congruence.
    + injection Hcall as _ _ <- <-. split; congruence.
  - intros opts ->. destruct (Client.PrivateKey msg) as [key|]; [|discriminate].
    exists key.
    destruct (ClientFacts.pending_nonce_cases nonceMap (PubkeyToAddress key)
                (Client.RemotePendingNonce node))
      as [(e & Hp & _)|(nonce & asked & Hp & Hcase)]; rewrite Hp in Hcall.
    + discriminate.
    + exists nonce.
      destruct (Client.ChainID node);
        [destruct (Client.NewKeyedTransactor node)|]; try discriminate.
      injection Hcall as <- _ <-. split; [reflexivity|].
      split; [|auto]. unfold Client.nonce_taken.
      destruct (nonceMap !! PubkeyToAddress key); tauto.
  - intros key n e Hkey Hn Hchain. rewrite Hkey, Hchain in Hcall.
    rewrite (NonceFacts.cached nonceMap _ n _ Hn) in Hcall.
    injection Hcall as <- _ <- <-. auto.
  - intros z Hz. unfold to_int64. rewrite (wrap64_small z) by lia.
    destruct (Z.ltb_spec z (2 ^ 63)); [lia|reflexivity].
Qed.

Lemma transact_opts_take_nonce_first_witness :
  (None : option Client.TransactOpts) = None
  /\ Some (Client.Plain (OtherErr 4)) = Some (Client.Plain (OtherErr 4))
  /\ <[10%N := 8]> (<[10%N := 7]> (∅ : gmap N Z))
     = <[N.succ 9%N := wrap64 (7 + 1)]> (<[10%N := 7]> ∅).
Proof.
  refine (proj1 (proj2 (proj2 (proj2
    (transact_opts_take_nonce_first N.succ
       (<[10%N := 7]> ∅) (<[10%N := 8]> (<[10%N := 7]> ∅))
       (Client.mkMessage 0%N (Some 9%N) (Some 3%N) 0 None None [] [])
       (Client.mkNode (Ok []) (Ok 21000) (Ok 1) (Ok 0) (Err (OtherErr 4)) None None None)
       [Client.RChainID] None (Some (Client.Plain (OtherErr 4))) _))))
    9%N 7 (OtherErr 4) eq_refl eq_refl eq_refl).
  reflexivity.
Defined.

(** ** Confirming a transaction *)

Lemma calls_snoc {E Q : Type} (acts acts' : list (action E Q)) :
  calls (acts ++ acts') = calls acts ++ calls acts'.
Proof.
  induction acts as [|[e|q|d] acts IH]; simpl; [reflexivity|..]; rewrite IH; reflexivity.
Qed.

Lemma snoc_mid {A : Type} (pre mid : list A) x y :
  (pre ++ x :: mid) ++ [y] = pre ++ x :: mid ++ [y].
Proof. rewrite <- app_assoc. reflexivity. Qed.

Lemma snoc_mid2 {A : Type} (pre mid : list A) x y z :
  (pre ++ x :: mid ++ [y]) ++ [z] = pre ++ x :: mid ++ [y; z].
Proof. rewrite <- app_assoc. simpl. rewrite <- app_assoc. reflexivity. Qed.

Lemma snoc_mid3 {A : Type} (pre mid : list A) x y z w :
  (pre ++ x :: mid ++ [y; z]) ++ [w] = pre ++ x :: mid ++ [y; z; w].
Proof. rewrite <- app_assoc. simpl. rewrite <- app_assoc. reflexivity. Qed.

Lemma snoc_mid_absorb {A : Type} (pre mid : list A) x y z :
  (pre ++ x :: mid ++ [y]) ++ [z] = pre ++ x :: (mid ++ [y; z]).
Proof. apply snoc_mid2. Qed.

Lemma confirm_step_inv txHash n st ev st' past acts acts1 :
  confirm_inv txHash n st past acts ->
  Client.confirm_step txHash n st ev = Some (st', acts1) ->
  confirm_inv txHash n st' (past ++ [ev]) (acts ++ acts1).
Proof.
  intros Hinv Hstep.
  destruct st as [[m|]|[m|]|m|ok err]; destruct ev as [h| |[b|e]];
    simpl in Hstep; try discriminate.
  - injection Hstep as <- <-. destruct Hinv as (pre & b1 & mid & -> & Htx & Hm).
    exists pre, b1, mid, h. rewrite snoc_mid. auto.
  - injection Hstep as <- <-. left. eauto.
  - injection Hstep as <- <-. exact I.
  - injection Hstep as <- <-. left. eauto.
  - destruct Hinv as (pre & b1 & mid & h & -> & Htx & Hm).
    destruct (Z.geb_spec (Client.BNumber b) (m + to_int64 n));
      injection Hstep as <- <-.
    + exists pre, b1, mid, h, b.
      rewrite snoc_mid2, (@calls_snoc Header Client.block_query). simpl.
      repeat split; auto; [lia|apply last_snoc].
    + exists pre, b1, (mid ++ [Recv h; Reply (Ok b)]). rewrite snoc_mid_absorb. auto.
  - injection Hstep as <- <-. simpl. eauto.
  - destruct (Client.has_tx txHash b) eqn:Htx; injection Hstep as <- <-.
    + exists past, b, []. auto.
    + exact I.
  - injection Hstep as <- <-. simpl. eauto.
  - destruct Hinv as (pre & b1 & mid & h & b2 & -> & Htx & Hm & Hge & Hlast).
    destruct (Client.has_tx txHash b) eqn:Htx3; injection Hstep as <- <-.
    + split; [reflexivity|]. exists pre, b1, mid, h, b2, b.
      rewrite snoc_mid3, app_nil_r. subst m. auto.
    + right. eauto.
  - injection Hstep as <- <-. simpl. eauto.
Qed.

Lemma confirm_run_inv txHash n evs : forall st st' past acts acts1,
  confirm_inv txHash n st past acts ->
  run (Client.confirm_step txHash n) st evs = Some (st', acts1) ->
  confirm_inv txHash n st' (past ++ evs) (acts ++ acts1).
Proof.
  induction evs as [|ev evs IH]; intros st st' past acts acts1 Hinv Hrun;
    simpl in Hrun.
  - injection Hrun as <- <-. rewrite !app_nil_r. exact Hinv.
  - destruct (Client.confirm_step txHash n st ev) as [[st1 a1]|] eqn:Hstep;
      [|discriminate].
    destruct (run (Client.confirm_step txHash n) st1 evs) as [[st2 a2]|] eqn:Hrun';
      [|discriminate].
    injection Hrun as <- <-.
    pose proof (confirm_step_inv _ _ _ _ _ _ _ _ Hinv Hstep) as Hinv1.
    pose proof (IH _ _ _ _ _ Hinv1 Hrun') as Hinv2.
    rewrite <- app_assoc in Hinv2. rewrite app_assoc. exact Hinv2.
Qed.

(** X14.  [ConfirmTx] answers [true] only on this evidence: some block,
    fetched by the hash of a delivered header, contained the transaction;
    on a later header the block fetched had a number at least that block's
    number plus [int64(n)]; and the block then fetched by that first number
    contained the transaction too.  That fetch by number is its last
    request, and no error comes with [true].  In particular it never
    answers on the first header, whatever [n] is. *)
Theorem confirm_true_needs_evidence
    (txHash : N) (n : Z) (evs : list Client.confirm_event)
    (err : option error) (acts : list Client.confirm_action)
    (Hrun : run (Client.confirm_step txHash n) Client.ConfirmTx evs
            = Some (Client.CReturn true err, acts)) :
  err = None
  /\ (exists pre b1 mid h b2 b3,
        evs = pre ++ Reply (Ok b1) :: mid ++ [Recv h; Reply (Ok b2); Reply (Ok b3)]
        /\ Client.has_tx txHash b1 = true
        /\ Client.BNumber b2 >= Client.BNumber b1 + to_int64 n
        /\ Client.has_tx txHash b3 = true
        /\ last (calls acts) = Some (Client.ByNumber (Client.BNumber b1)))
  /\ (forall h b,
        exists mined,
          run (Client.confirm_step txHash n) Client.ConfirmTx [Recv h; Reply (Ok b)]
          = Some (Client.CSelect mined, [Call (Client.ByHash h)])).
Proof.
  pose proof (confirm_run_inv txHash n evs (Client.CSelect None) _ [] [] _ I Hrun)
    as Hinv.
  simpl in Hinv. destruct Hinv as [-> Hev].
  split; [reflexivity|]. split; [exact Hev|].
  intros h b. unfold Client.ConfirmTx. simpl.
  destruct (Client.has_tx txHash b); eauto.
Qed.

Lemma confirm_true_needs_evidence_witness :
  exists pre b1 mid h b2 b3,
    [Recv head1; Reply (Ok (Client.mkBlock 1 [5%N]));
     Recv head2; Reply (Ok (Client.mkBlock 2 []));
     Recv head3; Reply (Ok (Client.mkBlock 3 []));
     Reply (Ok (Client.mkBlock 1 [5%N]))]
    = pre ++ Reply (Ok b1) :: mid ++ [Recv h; Reply (Ok b2); Reply (Ok b3)]
    /\ Client.has_tx 5%N b1 = true
    /\ Client.BNumber b2 >= Client.BNumber b1 + to_int64 2
    /\ Client.has_tx 5%N b3 = true
    /\ last (calls [Call (Client.ByHash head1); Call (Client.ByHash head2);
                    Call (Client.ByHash head3);
                    Call (Client.ByNumber 1) : Client.confirm_action])
       = Some (Client.ByNumber (Client.BNumber b1)).
Proof.
  refine (proj1 (proj2
    (confirm_true_needs_evidence 5%N 2
       [Recv head1; Reply (Ok (Client.mkBlock 1 [5%N]));
        Recv head2; Reply (Ok (Client.mkBlock 2 []));
        Recv head3; Reply (Ok (Client.mkBlock 3 []));
        Reply (Ok (Client.mkBlock 1 [5%N]))]
       None
       [Call (Client.ByHash head1); Call (Client.ByHash head2);
        Call (Client.ByHash head3); Call (Client.ByNumber 1)] _))).
  reflexivity.
Defined.

(** X15.  When [ConfirmTx] answers [false]: with an error, the error is
    that of the block request that just failed (subscribing itself never
    fails); without an error, either the timeout fired while it was waiting
    for a header, or the final fetch by number found the transaction gone
    from its block.  The two cases of [(false, nil)] look the same to the
    caller. *)
Theorem confirm_false_reasons
    (txHash : N) (n : Z) (evs : list Client.confirm_event)
    (err : option error) (acts : list Client.confirm_action)
    (Hrun : run (Client.confirm_step txHash n) Client.ConfirmTx evs
            = Some (Client.CReturn false err, acts)) :
  match err with
  | Some e => exists pre, evs = pre ++ [Reply (Err e)]
  | None =>
      (exists pre, evs = pre ++ [CtxDone])
      \/ (exists pre b3, evs = pre ++ [Reply (Ok b3)]
                         /\ Client.has_tx txHash b3 = false)
  end.
Proof.
  pose proof (confirm_run_inv txHash n evs (Client.CSelect None) _ [] [] _ I Hrun)
    as Hinv.
  simpl in Hinv. destruct err as [e|]; exact Hinv.
Qed.

Lemma confirm_false_reasons_witness :
  (exists pre, [Recv head1; Reply (Ok (Client.mkBlock 1 [])); CtxDone
                : Client.confirm_event] = pre ++ [CtxDone])
  \/ (exists pre b3,
        [Recv head1; Reply (Ok (Client.mkBlock 1 [])); CtxDone : Client.confirm_event]
        = pre ++ [Reply (Ok b3)]
        /\ Client.has_tx 5%N b3 = false).
Proof.
  apply (confirm_false_reasons 5%N 2
           [Recv head1; Reply (Ok (Client.mkBlock 1 [])); CtxDone]
           None [Call (Client.ByHash head1)]).
  reflexivity.
Defined.
